(** * Resource reservation exercises: meeting scheduler and parking lot

    A shallow embedding of [src/LLD/meetingScheduler.cpp] and
    [src/LLD/parkingLot.cpp], followed by the properties of the
    reservation engine that the specification states about them.

    Conventions.
    - [std::map<string, T>] is a [gmap string T]; where the code iterates a
      map (the per-spot lock table), the keys are kept as a list in
      ascending [std::string] order, which is the iteration order of
      [std::map].
    - [chrono::system_clock::time_point] is the integer tick count, a [Z].
    - Calls run one after the other: a [unique_lock] is always granted and
      [try_to_lock] always succeeds, so a lock table only records its keys.
    - [uuid_generate] and [system_clock::now] belong to the environment:
      the n-th identifier drawn by a service is [uuid n] for a generator
      [uuid : nat -> string] that the development is parametric in, and
      the clock reading of a call is an argument of that call. *)

From Stdlib Require Import ZArith Ascii String List Sorted OrderedTypeEx Lia.
From stdpp Require Import gmap strings list fin_maps sorting.

Local Open Scope Z_scope.

(** [chrono::system_clock::time_point]. *)
Definition time_point := Z.

(** A generator that never repeats an identifier. *)
Definition collision_free (uuid : nat -> string) : Prop :=
  forall m n : nat, uuid m = uuid n -> m = n.

(** A concrete generator used to run the models on examples:
    [#], [i#], [ii#], ... *)
Fixpoint tally (n : nat) : string :=
  match n with
  | O => "#"%string
  | S k => String "i"%char (tally k)
  end.

(* ===================================================================== *)
(** * Meeting scheduler ([meetingScheduler.cpp])                          *)
(* ===================================================================== *)

Module Meeting.

(** ** Domain models *)

Record Room := mkRoom {
  Room_id : string;
  capacity : Z
}.

Record Booking := mkBooking {
  Booking_id : string;
  roomId : string;
  start : time_point;
  end_ : time_point;
  attendees : list string
}.

(** The calendar date of a [tm], as a day number. *)
Definition tm := Z.

(** ** Repositories *)

Record RoomRepository := mkRoomRepository {
  rooms_ : list Room
}.

Record BookingRepository := mkBookingRepository {
  bookings_ : gmap string Booking
}.

(** Modelled from the spec: [RoomRepository::findByCapacity] is declared
    but has no body.  Section 4.1: "findByCapacity(minCap) / ... return all
    matching resources (order unspecified but stable within a call)".
    The model returns them in the order the catalog holds them, which is
    one of the orders the spec allows; a property that depends on this
    choice says so. *)
Definition findByCapacity (rr : RoomRepository) (cap : Z) : list Room :=
  List.filter (fun r => cap <=? capacity r) (rooms_ rr).

(** Modelled from the spec: [BookingRepository::save], [findById] and
    [remove] of the meeting scheduler are declared but have no body.
    Section 4.5 lists them as the store operations keyed by reservation
    id; they act on [bookings_] exactly like their parking-lot siblings. *)
Definition save (b : Booking) (repo : BookingRepository) : BookingRepository :=
  {| bookings_ := <[Booking_id b := b]> (bookings_ repo) |}.

Definition findById (repo : BookingRepository) (i : string) : option Booking :=
  bookings_ repo !! i.

Definition remove (i : string) (repo : BookingRepository) : BookingRepository :=
  {| bookings_ := delete i (bookings_ repo) |}.

(** [vector<Room>::size()] is a [size_t]; passing it where an [int] is
    expected wraps it into the 32-bit signed range. *)
Definition int_of_size_t (n : Z) : Z := (n + 2 ^ 31) mod 2 ^ 32 - 2 ^ 31.

(** ** Conflict check *)

(** [CalendarService::overlaps]. *)
Definition overlaps (a b : Booking) : bool :=
  negb ((end_ b <=? start a) || (start b >=? end_ a)).

(** ** Room allocation strategy *)

Class IRoomStrategy := {
  select : list Room -> Z -> option Room
}.

(** The loop of [SmallestFitStrategy::select], with [best] as accumulator. *)
Fixpoint select_loop (best : option Room) (rooms : list Room) (cap : Z)
  : option Room :=
  match rooms with
  | [] => best
  | r :: rest =>
      let fitting := capacity r >=? cap in
      let better :=
        match best with
        | None => true
        | Some b => capacity r <? capacity b
        end in
      select_loop (if fitting && better then Some r else best) rest cap
  end.

Definition SmallestFitStrategy_select (rooms : list Room) (cap : Z)
  : option Room :=
  select_loop None rooms cap.

#[export] Instance SmallestFitStrategy : IRoomStrategy :=
  {| select := SmallestFitStrategy_select |}.

Section Service.

(** [CalendarService::toDate] is declared but has no body: the calendar
    date of an instant is a parameter. *)
Variable toDate : time_point -> tm.

(** The identifier generator behind [newUUID]. *)
Variable uuid : nat -> string.

Context {strat_ : IRoomStrategy}.

(** Modelled from the spec: [BookingRepository::findByRoomAndDay] is
    declared but has no body.  Section 4.5 names it as the lookup by
    resource and day: the stored bookings of room [room] that start on
    calendar date [date]. *)
Definition findByRoomAndDay (repo : BookingRepository) (room : string)
    (date : tm) : list Booking :=
  filter (fun ex => roomId ex = room /\ toDate (start ex) = date)
         (snd <$> map_to_list (bookings_ repo)).

(** [CalendarService::isFree], over the calendar's own repository. *)
Definition isFree (repo_ : BookingRepository) (room : string) (b : Booking)
  : bool :=
  let day := toDate (start b) in
  forallb (fun ex => negb (overlaps ex b)) (findByRoomAndDay repo_ room day).

(** The objects a [MeetingService] works on: the two repositories it
    holds by reference, its lock table, the repository owned by the
    [CalendarService] singleton, and how many identifiers were drawn. *)
Record World := mkWorld {
  rr_ : RoomRepository;
  br_ : BookingRepository;
  mutexes_ : gset string;
  cal_repo_ : BookingRepository;
  uuids_drawn : nat
}.

(** A service over a room catalog, with nothing booked yet. *)
Definition fresh (rooms : list Room) : World :=
  {| rr_ := mkRoomRepository rooms;
     br_ := mkBookingRepository ∅;
     mutexes_ := ∅;
     cal_repo_ := mkBookingRepository ∅;
     uuids_drawn := O |}.

(** [MeetingService::bookMeeting].  [NotificationService::sendInvites]
    has an empty body and is left out. *)
Definition bookMeeting (req : Booking) (w : World) : option string * World :=
  let cap := int_of_size_t (Z.of_nat (length (attendees req))) in
  let rooms := findByCapacity (rr_ w) cap in
  match select rooms cap with
  | None => (None, w)
  | Some room =>
      let b := {| Booking_id := uuid (uuids_drawn w);
                  roomId := Room_id room;
                  start := start req;
                  end_ := end_ req;
                  attendees := attendees req |} in
      let w1 := {| rr_ := rr_ w;
                   br_ := br_ w;
                   mutexes_ := {[roomId b]} ∪ mutexes_ w;
                   cal_repo_ := cal_repo_ w;
                   uuids_drawn := S (uuids_drawn w) |} in
      if negb (isFree (cal_repo_ w1) (roomId b) b) then (None, w1)
      else
        (Some (Booking_id b),
         {| rr_ := rr_ w1;
            br_ := save b (br_ w1);
            mutexes_ := mutexes_ w1;
            cal_repo_ := save b (cal_repo_ w1);
            uuids_drawn := uuids_drawn w1 |})
  end.

(** [MeetingService::cancelMeeting].  [sendCancellations] has an empty
    body and is left out. *)
Definition cancelMeeting (i : string) (w : World) : bool * World :=
  match findById (br_ w) i with
  | None => (false, w)
  | Some b =>
      (true,
       {| rr_ := rr_ w;
          br_ := remove i (br_ w);
          mutexes_ := mutexes_ w;
          cal_repo_ := remove i (cal_repo_ w);
          uuids_drawn := uuids_drawn w |})
  end.

(** A client call, and the run of a sequence of calls. *)
Inductive call :=
| BookMeeting (req : Booking)
| CancelMeeting (i : string).

Definition step (w : World) (c : call) : World :=
  match c with
  | BookMeeting req => snd (bookMeeting req w)
  | CancelMeeting i => snd (cancelMeeting i w)
  end.

Definition run (calls : list call) (w : World) : World :=
  fold_left step calls w.

End Service.

(** ** Vocabulary of the properties *)

(** The half-open windows of two bookings overlap. *)
Definition windows_overlap (a b : Booking) : Prop :=
  start b < end_ a /\ start a < end_ b.

(** No two bookings persisted for one room overlap. *)
Definition non_overlapping (repo : BookingRepository) : Prop :=
  forall (i j : string) (a b : Booking),
    bookings_ repo !! i = Some a -> bookings_ repo !! j = Some b ->
    i <> j -> roomId a = roomId b -> ~ windows_overlap a b.

(** Every instant of the window falls on the calendar date of its start. *)
Definition single_day (toDate : time_point -> tm) (b : Booking) : Prop :=
  forall t : time_point, start b <= t < end_ b -> toDate t = toDate (start b).

Definition call_single_day (toDate : time_point -> tm) (c : call) : Prop :=
  match c with
  | BookMeeting req => single_day toDate req
  | CancelMeeting _ => True
  end.

(** What every run from [fresh] maintains: the calendar's repository
    mirrors the service's, rooms hold no overlapping bookings, and every
    persisted window stays within one calendar date. *)
Definition consistent (toDate : time_point -> tm) (w : World) : Prop :=
  br_ w = cal_repo_ w /\
  non_overlapping (br_ w) /\
  forall (i : string) (a : Booking),
    bookings_ (br_ w) !! i = Some a -> single_day toDate a.

(** The capacity a request asks for. *)
Definition headcount (req : Booking) : Z :=
  int_of_size_t (Z.of_nat (length (attendees req))).

(** No candidate of the same capacity that fits has a smaller id than [r]. *)
Definition lowest_id_among_ties (rooms : list Room) (cap : Z) (r : Room)
  : Prop :=
  forall r' : Room,
    r' ∈ rooms -> cap <= capacity r' -> capacity r' = capacity r ->
    String.compare (Room_id r') (Room_id r) <> Lt.

(** The window of a request is malformed. *)
Definition malformed (req : Booking) : Prop := end_ req <= start req.

(** Example data: a day of 24 hourly ticks, a room, a few requests. *)
Definition hours (t : time_point) : tm := t / 24.

Definition request (s e : time_point) (who : list string) : Booking :=
  {| Booking_id := ""; roomId := ""; start := s; end_ := e; attendees := who |}.

Definition boardroom : Room := {| Room_id := "board"; capacity := 4 |}.

Definition room (i : string) (cap : Z) : Room :=
  {| Room_id := i; capacity := cap |}.

Definition booked (i room : string) (s e : time_point) (who : list string)
  : Booking :=
  {| Booking_id := i; roomId := room; start := s; end_ := e;
     attendees := who |}.

Definition one_meeting : list call :=
  [BookMeeting (request 10 11 ["ann"])].

(** Two meetings back to back, the first cancelled, then one over both
    hours. *)
Definition morning : list call :=
  [BookMeeting (request 10 11 ["ann"]);
   BookMeeting (request 11 12 ["bob"]);
   CancelMeeting (tally 0);
   BookMeeting (request 10 12 ["cyd"; "dan"])].

(** A one-hour meeting on day 5, then a request from day 4 to day 5 that
    covers it. *)
Definition overnight : list call :=
  [BookMeeting (request 130 131 ["ann"]);
   BookMeeting (request 100 140 ["bob"])].

(** *** Further vocabulary *)

(** Every stored booking is stored under its own id, and that id was
    drawn from the generator. *)
Definition ids_drawn (uuid : nat -> string) (w : World) : Prop :=
  forall (i : string) (b : Booking),
    bookings_ (br_ w) !! i = Some b ->
    Booking_id b = i /\ exists k : nat, (k < uuids_drawn w)%nat /\ i = uuid k.

(** Some stored booking of the room, starting on the date on which the
    request starts, overlaps the request. *)
Definition conflicting (toDate : time_point -> tm) (repo : BookingRepository)
    (room : string) (req : Booking) : Prop :=
  exists (i : string) (ex : Booking),
    bookings_ repo !! i = Some ex /\ roomId ex = room /\
    toDate (start ex) = toDate (start req) /\ windows_overlap ex req.

(** A busy afternoon: the board room is taken from 14 to 15. *)
Definition afternoon : list call :=
  [BookMeeting (request 14 15 ["ann"; "bob"])].

End Meeting.

(* ===================================================================== *)
(** * Parking lot ([parkingLot.cpp])                                      *)
(* ===================================================================== *)

Module Parking.

(** ** Data models *)

Module VehicleType.
Inductive t := Motorcycle | Car | Truck.
End VehicleType.

Module SpotType.
Inductive t := Motorcycle | Compact | Large.
End SpotType.

Record ParkingLot := mkParkingLot {
  ParkingLot_id : string;
  numLevels : Z
}.

Record ParkingFloor := mkParkingFloor {
  ParkingFloor_id : string;
  lotId : string;
  level : Z
}.

Record ParkingSpot := mkParkingSpot {
  ParkingSpot_id : string;
  floorId : string;
  type : SpotType.t
}.

Record Booking := mkBooking {
  Booking_id : string;
  spotId : string;
  vehicleId : string;
  vehicleType : VehicleType.t;
  start : time_point;
  end_ : option time_point
}.

(** The value-initialised [Booking] that [std::map::operator[]] inserts
    for a key it does not hold. *)
Definition Booking_default : Booking :=
  {| Booking_id := ""; spotId := ""; vehicleId := "";
     vehicleType := VehicleType.Motorcycle; start := 0; end_ := None |}.

(** ** Repositories *)

Record ParkingLotRepository := mkParkingLotRepository {
  lots_ : gmap string ParkingLot
}.

Record ParkingFloorRepository := mkParkingFloorRepository {
  floors_ : gmap string ParkingFloor
}.

Record ParkingSpotRepository := mkParkingSpotRepository {
  spots_ : gmap string ParkingSpot
}.

Record BookingRepository := mkBookingRepository {
  bookings_ : gmap string Booking;
  vehicleIndex_ : gmap string string
}.

(** [for (auto& [k, v] : m)] over a [std::map<string, T>]: the entries in
    ascending key order. *)
Definition key_le {A : Type} (p q : string * A) : Prop :=
  String.leb (fst p) (fst q) = true.

#[export] Instance key_le_dec {A : Type} (p q : string * A)
  : Decision (key_le p q) :=
  decide (String.leb (fst p) (fst q) = true).

Definition in_key_order {A : Type} (m : gmap string A) : list (string * A) :=
  merge_sort key_le (map_to_list m).

Module ParkingLotRepository.
Definition save (lot : ParkingLot) (r : ParkingLotRepository)
  : ParkingLotRepository :=
  {| lots_ := <[ParkingLot_id lot := lot]> (lots_ r) |}.

Definition findById (r : ParkingLotRepository) (i : string)
  : option ParkingLot :=
  lots_ r !! i.
End ParkingLotRepository.

Module ParkingFloorRepository.
Definition save (f : ParkingFloor) (r : ParkingFloorRepository)
  : ParkingFloorRepository :=
  {| floors_ := <[ParkingFloor_id f := f]> (floors_ r) |}.

Definition findByLot (r : ParkingFloorRepository) (lot : string)
  : list ParkingFloor :=
  snd <$> filter (fun p => lotId (snd p) = lot) (in_key_order (floors_ r)).
End ParkingFloorRepository.

Module ParkingSpotRepository.
Definition save (s : ParkingSpot) (r : ParkingSpotRepository)
  : ParkingSpotRepository :=
  {| spots_ := <[ParkingSpot_id s := s]> (spots_ r) |}.

Definition findByFloor (r : ParkingSpotRepository) (floor : string)
  : list ParkingSpot :=
  snd <$> filter (fun p => floorId (snd p) = floor) (in_key_order (spots_ r)).

Definition findById (r : ParkingSpotRepository) (i : string)
  : option ParkingSpot :=
  spots_ r !! i.
End ParkingSpotRepository.

Module BookingRepository.
Definition save (b : Booking) (r : BookingRepository) : BookingRepository :=
  {| bookings_ := <[Booking_id b := b]> (bookings_ r);
     vehicleIndex_ := <[vehicleId b := Booking_id b]> (vehicleIndex_ r) |}.

(** [return bookings_[it->second]]: reading a key that is not held
    inserts the default booking under it. *)
Definition findByVehicle (r : BookingRepository) (v : string)
  : option Booking * BookingRepository :=
  match vehicleIndex_ r !! v with
  | None => (None, r)
  | Some i =>
      match bookings_ r !! i with
      | Some b => (Some b, r)
      | None =>
          (Some Booking_default,
           {| bookings_ := <[i := Booking_default]> (bookings_ r);
              vehicleIndex_ := vehicleIndex_ r |})
      end
  end.

Definition remove (bookingId : string) (r : BookingRepository)
  : BookingRepository :=
  match bookings_ r !! bookingId with
  | Some b =>
      {| bookings_ := delete bookingId (bookings_ r);
         vehicleIndex_ := delete (vehicleId b) (vehicleIndex_ r) |}
  | None => r
  end.
End BookingRepository.

(** ** The per-spot lock table

    [map<string, mutex>]: its keys in ascending order.  [mutexes_[k]]
    adds [k] when it is not there. *)
Fixpoint mutexes_touch (k : string) (keys : list string) : list string :=
  match keys with
  | [] => [k]
  | k' :: rest =>
      match String.compare k k' with
      | Lt => k :: keys
      | Eq => keys
      | Gt => k' :: mutexes_touch k rest
      end
  end.

(** ** Service *)

Record ParkingService := mkParkingService {
  lotRepo_ : ParkingLotRepository;
  floorRepo_ : ParkingFloorRepository;
  spotRepo_ : ParkingSpotRepository;
  bookingRepo_ : BookingRepository;
  mutexes_ : list string;
  uuids_drawn : nat
}.

Definition set_lotRepo (r : ParkingLotRepository) (st : ParkingService) :=
  mkParkingService r (floorRepo_ st) (spotRepo_ st) (bookingRepo_ st)
                   (mutexes_ st) (uuids_drawn st).
Definition set_floorRepo (r : ParkingFloorRepository) (st : ParkingService) :=
  mkParkingService (lotRepo_ st) r (spotRepo_ st) (bookingRepo_ st)
                   (mutexes_ st) (uuids_drawn st).
Definition set_spotRepo (r : ParkingSpotRepository) (st : ParkingService) :=
  mkParkingService (lotRepo_ st) (floorRepo_ st) r (bookingRepo_ st)
                   (mutexes_ st) (uuids_drawn st).
Definition set_bookingRepo (r : BookingRepository) (st : ParkingService) :=
  mkParkingService (lotRepo_ st) (floorRepo_ st) (spotRepo_ st) r
                   (mutexes_ st) (uuids_drawn st).
Definition set_mutexes (m : list string) (st : ParkingService) :=
  mkParkingService (lotRepo_ st) (floorRepo_ st) (spotRepo_ st)
                   (bookingRepo_ st) m (uuids_drawn st).

(** A service over empty repositories. *)
Definition empty_service : ParkingService :=
  {| lotRepo_ := mkParkingLotRepository ∅;
     floorRepo_ := mkParkingFloorRepository ∅;
     spotRepo_ := mkParkingSpotRepository ∅;
     bookingRepo_ := mkBookingRepository ∅ ∅;
     mutexes_ := [];
     uuids_drawn := O |}.

(** [ParkingService::fits]. *)
Definition fits (v : VehicleType.t) (s : SpotType.t) : bool :=
  match v with
  | VehicleType.Motorcycle => true
  | VehicleType.Car =>
      match s with
      | SpotType.Compact | SpotType.Large => true
      | SpotType.Motorcycle => false
      end
  | VehicleType.Truck =>
      match s with
      | SpotType.Large => true
      | _ => false
      end
  end.

(** [ParkingService::isOccupied]: looks up the vehicle index under the
    empty vehicle id, drops the answer and returns [false]. *)
Definition isOccupied (r : BookingRepository) (spot : string)
  : bool * BookingRepository :=
  let '(all, r') := BookingRepository.findByVehicle r "" in
  (false, r').

Section Service.

(** The identifier generator behind [newUUID]. *)
Variable uuid : nat -> string.

Definition newUUID (st : ParkingService) : string * ParkingService :=
  (uuid (uuids_drawn st),
   mkParkingService (lotRepo_ st) (floorRepo_ st) (spotRepo_ st)
                    (bookingRepo_ st) (mutexes_ st) (S (uuids_drawn st))).

(** *** [createParkingLot] *)

(** [for (int i = 0; i < count; ++i)], [n] iterations to go. *)
Fixpoint create_spots (n : nat) (floor : string) (ty : SpotType.t)
    (st : ParkingService) : ParkingService :=
  match n with
  | O => st
  | S k =>
      let '(spot, st1) := newUUID st in
      let st2 :=
        set_spotRepo
          (ParkingSpotRepository.save (mkParkingSpot spot floor ty)
                                      (spotRepo_ st1)) st1 in
      create_spots k floor ty (set_mutexes (mutexes_touch spot (mutexes_ st2)) st2)
  end.

(** [for (auto& [type, count] : spotTypeCounts)]: the keys the map
    holds, in the order of the enumeration. *)
Definition create_floor_spots (spotTypeCounts : SpotType.t -> option Z)
    (floor : string) (st : ParkingService) : ParkingService :=
  fold_left
    (fun acc ty =>
       match spotTypeCounts ty with
       | Some count => create_spots (Z.to_nat count) floor ty acc
       | None => acc
       end)
    [SpotType.Motorcycle; SpotType.Compact; SpotType.Large] st.

(** [for (int lvl = 1; lvl <= levels; ++lvl)], [n] iterations to go.
    The loop of the source ends after [levels] turns when
    [levels < 2^31 - 1]; at [levels = 2^31 - 1] the test [lvl <= levels]
    never fails and [++lvl] overflows, so the model stands for the source
    below that bound only. *)
Fixpoint create_levels (n : nat) (lvl : Z) (lot : string)
    (spotTypeCounts : SpotType.t -> option Z) (st : ParkingService)
  : ParkingService :=
  match n with
  | O => st
  | S k =>
      let '(floor, st1) := newUUID st in
      let st2 :=
        set_floorRepo
          (ParkingFloorRepository.save (mkParkingFloor floor lot lvl)
                                       (floorRepo_ st1)) st1 in
      create_levels k (lvl + 1) lot spotTypeCounts
                    (create_floor_spots spotTypeCounts floor st2)
  end.

Definition createParkingLot (levels spotsPerLevel : Z)
    (spotTypeCounts : SpotType.t -> option Z) (st : ParkingService)
  : string * ParkingService :=
  let '(lot, st1) := newUUID st in
  let st2 :=
    set_lotRepo (ParkingLotRepository.save (mkParkingLot lot levels)
                                           (lotRepo_ st1)) st1 in
  (lot, create_levels (Z.to_nat levels) 1 lot spotTypeCounts st2).

(** *** [parkVehicle] *)

(** The scan of the lock table, from the keys still to visit. *)
Fixpoint parkVehicle_scan (keys : list string) (vehicle : string)
    (vt : VehicleType.t) (now : time_point) (st : ParkingService)
  : option string * ParkingService :=
  match keys with
  | [] => (None, st)
  | spot :: rest =>
      let '(occupied, r1) := isOccupied (bookingRepo_ st) spot in
      let st1 := set_bookingRepo r1 st in
      if occupied then parkVehicle_scan rest vehicle vt now st1
      else
        match ParkingSpotRepository.findById (spotRepo_ st1) spot with
        | None => parkVehicle_scan rest vehicle vt now st1
        | Some sp =>
            if negb (fits vt (type sp))
            then parkVehicle_scan rest vehicle vt now st1
            else
              let '(i, st2) := newUUID st1 in
              let b := mkBooking i spot vehicle vt now None in
              (Some (Booking_id b),
               set_bookingRepo (BookingRepository.save b (bookingRepo_ st2))
                               st2)
        end
  end.

Definition parkVehicle (vehicle : string) (vt : VehicleType.t)
    (now : time_point) (st : ParkingService)
  : option string * ParkingService :=
  parkVehicle_scan (mutexes_ st) vehicle vt now st.

(** *** [leaveVehicle] *)

Definition leaveVehicle (vehicle : string) (now : time_point)
    (st : ParkingService) : bool * ParkingService :=
  let '(bop, r1) := BookingRepository.findByVehicle (bookingRepo_ st) vehicle in
  match bop with
  | None => (false, set_bookingRepo r1 st)
  | Some b0 =>
      let b := mkBooking (Booking_id b0) (spotId b0) (vehicleId b0)
                         (vehicleType b0) (start b0) (Some now) in
      (true, set_bookingRepo (BookingRepository.remove (Booking_id b) r1) st)
  end.

(** *** [getAvailableSpots]

    [findById(spotId).value()] throws when the spot is unknown: the
    result is [None] then. *)
Fixpoint getAvailableSpots_scan (keys : list string) (vt : VehicleType.t)
    (res : list string) (st : ParkingService)
  : option (list string) * ParkingService :=
  match keys with
  | [] => (Some res, st)
  | spot :: rest =>
      let '(occupied, r1) := isOccupied (bookingRepo_ st) spot in
      let st1 := set_bookingRepo r1 st in
      if occupied then getAvailableSpots_scan rest vt res st1
      else
        match ParkingSpotRepository.findById (spotRepo_ st1) spot with
        | None => (None, st1)
        | Some sp =>
            getAvailableSpots_scan rest vt
              (if fits vt (type sp) then res ++ [spot] else res) st1
        end
  end.

Definition getAvailableSpots (vt : VehicleType.t) (st : ParkingService)
  : option (list string) * ParkingService :=
  getAvailableSpots_scan (mutexes_ st) vt [] st.

(** *** Client calls *)

Inductive call :=
| ParkVehicle (vehicle : string) (vt : VehicleType.t) (now : time_point)
| LeaveVehicle (vehicle : string) (now : time_point).

Definition step (st : ParkingService) (c : call) : ParkingService :=
  match c with
  | ParkVehicle v vt now => snd (parkVehicle v vt now st)
  | LeaveVehicle v now => snd (leaveVehicle v now st)
  end.

Definition run (calls : list call) (st : ParkingService) : ParkingService :=
  fold_left step calls st.

(** The service right after [createParkingLot] on empty repositories. *)
Definition fresh_lot (levels spotsPerLevel : Z)
    (spotTypeCounts : SpotType.t -> option Z) : ParkingService :=
  snd (createParkingLot levels spotsPerLevel spotTypeCounts empty_service).

End Service.

(** ** Vocabulary of the properties *)

(** Some stored booking for [spot] has no end yet. *)
Definition has_active_booking (r : BookingRepository) (spot : string) : Prop :=
  exists (i : string) (b : Booking),
    bookings_ r !! i = Some b /\ spotId b = spot /\ end_ b = None.

(** No spot has two stored bookings without end. *)
Definition at_most_one_active (r : BookingRepository) : Prop :=
  forall (i j : string) (a b : Booking),
    bookings_ r !! i = Some a -> bookings_ r !! j = Some b ->
    spotId a = spotId b -> end_ a = None -> end_ b = None -> i = j.

(** The spot is known to the catalog and its type fits the vehicle. *)
Definition compatible (spots : ParkingSpotRepository) (vt : VehicleType.t)
    (spot : string) : Prop :=
  exists sp : ParkingSpot,
    ParkingSpotRepository.findById spots spot = Some sp /\
    fits vt (type sp) = true.

(** The spot passes both tests of the scan: [isOccupied] reports it free
    and it is compatible. *)
Definition free_and_compatible (st : ParkingService) (vt : VehicleType.t)
    (spot : string) : Prop :=
  fst (isOccupied (bookingRepo_ st) spot) = false /\
  compatible (spotRepo_ st) vt spot.

(** The order of [std::string] keys in a [std::map]. *)
Definition key_lt (a b : string) : Prop := String.compare a b = Lt.

(** The two maps of the booking repository agree: a booking is stored
    under its own id, and the vehicle index points at a stored booking of
    that vehicle. *)
Definition repo_wf (r : BookingRepository) : Prop :=
  (forall (i : string) (b : Booking),
     bookings_ r !! i = Some b -> Booking_id b = i) /\
  (forall v i : string,
     vehicleIndex_ r !! v = Some i ->
     exists b : Booking, bookings_ r !! i = Some b /\ vehicleId b = v).

(** Every stored booking id was drawn from the generator. *)
Definition ids_drawn (uuid : nat -> string) (st : ParkingService) : Prop :=
  forall i : string,
    is_Some (bookings_ (bookingRepo_ st) !! i) ->
    exists k : nat, (k < uuids_drawn st)%nat /\ i = uuid k.

Definition service_wf (uuid : nat -> string) (st : ParkingService) : Prop :=
  repo_wf (bookingRepo_ st) /\ ids_drawn uuid st.

(** Example data: one level with a single compact spot, whose id is the
    third identifier drawn, and two cars arriving. *)
Definition one_compact (ty : SpotType.t) : option Z :=
  match ty with
  | SpotType.Compact => Some 1
  | _ => None
  end.

Definition small_lot : ParkingService := fresh_lot tally 1 1 one_compact.

(** The booking [b] with its end set to [now]. *)
Definition stamped (b : Booking) (now : time_point) : Booking :=
  mkBooking (Booking_id b) (spotId b) (vehicleId b) (vehicleType b)
            (start b) (Some now).

Definition one_car : list call :=
  [ParkVehicle "KA01" VehicleType.Car 100].

(** The booking the first car gets: the fourth identifier, on the spot. *)
Definition first_car : Booking :=
  mkBooking (tally 3) (tally 2) "KA01" VehicleType.Car 100 None.

Definition two_cars : list call :=
  [ParkVehicle "KA01" VehicleType.Car 100;
   ParkVehicle "KA02" VehicleType.Car 101].

(** The same car is parked twice, then leaves. *)
Definition parked_twice : list call :=
  [ParkVehicle "KA01" VehicleType.Car 100;
   ParkVehicle "KA01" VehicleType.Car 130;
   LeaveVehicle "KA01" 160].

(** *** [main]

    The program of the file: what it writes to [cout], its exit code and
    the service it leaves behind.  The two clock readings are those of
    parkVehicle and leaveVehicle. *)
Definition newline : string := String "010"%char EmptyString.

Definition main_counts (ty : SpotType.t) : option Z :=
  match ty with
  | SpotType.Motorcycle => Some 2
  | SpotType.Compact => Some 6
  | SpotType.Large => Some 2
  end.

Definition main (uuid : nat -> string) (now_in now_out : time_point)
  : string * Z * ParkingService :=
  let svc := empty_service in
  let '(lot, svc1) := createParkingLot uuid 3 10 main_counts svc in
  let '(booking, svc2) :=
    parkVehicle uuid "KA01AB1234" VehicleType.Car now_in svc1 in
  let out :=
    match booking with
    | Some i => ("Parked in booking " ++ i ++ newline)%string
    | None => ("Lot full!" ++ newline)%string
    end in
  let '(_, svc3) := leaveVehicle "KA01AB1234" now_out svc2 in
  (out, 0, svc3).

(** *** Further vocabulary *)

(** The boolean form of [compatible]. *)
Definition compatibleb (spots : ParkingSpotRepository) (vt : VehicleType.t)
    (spot : string) : bool :=
  match ParkingSpotRepository.findById spots spot with
  | Some sp => fits vt (type sp)
  | None => false
  end.

(** The lock table and the spot catalog go together: a key has a lock
    exactly when a spot is stored under it, and a spot is stored under its
    own id. *)
Definition lot_wf (st : ParkingService) : Prop :=
  (forall k : string,
     k ∈ mutexes_ st <-> is_Some (spots_ (spotRepo_ st) !! k)) /\
  (forall (k : string) (sp : ParkingSpot),
     spots_ (spotRepo_ st) !! k = Some sp -> ParkingSpot_id sp = k).

(** What holds of every stored booking: it has no end, and it is for a
    spot of the lot whose type fits the vehicle. *)
Definition bookings_wf (st : ParkingService) : Prop :=
  forall (i : string) (b : Booking),
    bookings_ (bookingRepo_ st) !! i = Some b ->
    end_ b = None /\ compatible (spotRepo_ st) (vehicleType b) (spotId b).

(** The number of spots one level gets, and the number of levels. *)
Definition spots_per_level (counts : SpotType.t -> option Z) : nat :=
  (Z.to_nat (default 0%Z (counts SpotType.Motorcycle)) +
   Z.to_nat (default 0%Z (counts SpotType.Compact)) +
   Z.to_nat (default 0%Z (counts SpotType.Large)))%nat.

(** The floors stored so far belong to [lot], are numbered 1 to [j], are
    stored under their own id and have [n] spots each; every stored spot
    is on a stored floor. *)
Definition floors_wf (lot : string) (n j : nat) (st : ParkingService) : Prop :=
  (forall (k : string) (f : ParkingFloor),
     floors_ (floorRepo_ st) !! k = Some f ->
     ParkingFloor_id f = k /\ lotId f = lot /\
     1 <= level f <= Z.of_nat j /\
     length (ParkingSpotRepository.findByFloor (spotRepo_ st) k) = n) /\
  (forall l : Z, 1 <= l <= Z.of_nat j ->
     exists (k : string) (f : ParkingFloor),
       floors_ (floorRepo_ st) !! k = Some f /\ level f = l) /\
  (forall (k : string) (sp : ParkingSpot),
     spots_ (spotRepo_ st) !! k = Some sp ->
     is_Some (floors_ (floorRepo_ st) !! floorId sp)).

(** The sizes of the catalog after [j] levels of [n] spots. *)
Definition sizes (n j : nat) (st : ParkingService) : Prop :=
  size (floors_ (floorRepo_ st)) = j /\
  size (spots_ (spotRepo_ st)) = (j * n)%nat /\
  length (mutexes_ st) = (j * n)%nat.

(** What holds after [j] turns of the loop over the levels. *)
Definition levels_done (uuid : nat -> string) (lot : string) (n j : nat)
    (st : ParkingService) : Prop :=
  ((forall k : string, is_Some (spots_ (spotRepo_ st) !! k) ->
      exists m : nat, (m < uuids_drawn st)%nat /\ k = uuid m) /\
   (forall k : string, is_Some (floors_ (floorRepo_ st) !! k) ->
      exists m : nat, (m < uuids_drawn st)%nat /\ k = uuid m)) /\
  lot_wf st /\ floors_wf lot n j st /\ sizes n j st.

(** Every stored floor, spot and lot id was drawn from the generator. *)
Definition catalog_drawn (uuid : nat -> string) (st : ParkingService) : Prop :=
  (forall k : string, is_Some (spots_ (spotRepo_ st) !! k) ->
     exists n : nat, (n < uuids_drawn st)%nat /\ k = uuid n) /\
  (forall k : string, is_Some (floors_ (floorRepo_ st) !! k) ->
     exists n : nat, (n < uuids_drawn st)%nat /\ k = uuid n).

End Parking.

(* ===================================================================== *)
(** * Properties                                                          *)
(* ===================================================================== *)

Lemma tally_collision_free : collision_free tally.
Proof.
  intros m; induction m as [|m IH]; intros [|n] H; simpl in H;
    try discriminate; [reflexivity|].
  f_equal. apply IH. congruence.
Qed.


Module MeetingProofs.
Import Meeting.

(** ** Helper facts *)

Lemma overlaps_true (a b : Booking) :
  overlaps a b = true <-> windows_overlap a b.
Proof. unfold overlaps, windows_overlap. lia. Qed.

Lemma overlaps_false (a b : Booking) :
  overlaps a b = false <-> ~ windows_overlap a b.
Proof. rewrite <- overlaps_true. destruct (overlaps a b); intuition congruence. Qed.

Lemma windows_overlap_sym (a b : Booking) :
  windows_overlap a b -> windows_overlap b a.
Proof. unfold windows_overlap. lia. Qed.

(** *** The strategy loop *)

Lemma select_loop_none (cap : Z) (rooms : list Room) (best : option Room) :
  select_loop best rooms cap = None <->
  best = None /\ forall r, r ∈ rooms -> capacity r < cap.
Proof.
  revert best. induction rooms as [|x rest IH]; intros best; simpl.
  - split; [intros ->; split; [done|] | tauto].
    intros r Hr. by apply elem_of_nil in Hr.
  - rewrite IH. split.
    + intros [Hb Hall].
      destruct (capacity x >=? cap) eqn:Hfit; simpl in Hb.
      * destruct best as [b|]; [destruct (capacity x <? capacity b)|];
          discriminate.
      * split; [done|]. intros r [->|Hr]%elem_of_cons; [lia | by apply Hall].
    + intros [-> Hall].
      assert (capacity x < cap) by (apply Hall; left).
      replace (capacity x >=? cap) with false by lia. simpl.
      split; [done|]. intros r Hr. apply Hall. by right.
Qed.

Lemma select_loop_some (cap : Z) (rooms : list Room) (best : option Room)
    (r : Room) :
  select_loop best rooms cap = Some r ->
  (best = Some r /\
   forall r', r' ∈ rooms -> cap <= capacity r' -> capacity r <= capacity r')
  \/ (exists pre post,
        rooms = pre ++ r :: post /\ cap <= capacity r /\
        (forall b0, best = Some b0 -> capacity r < capacity b0) /\
        (forall r', r' ∈ pre -> cap <= capacity r' ->
                    capacity r < capacity r') /\
        (forall r', r' ∈ post -> cap <= capacity r' ->
                    capacity r <= capacity r')).
Proof.
  revert best. induction rooms as [|x rest IH]; intros best; simpl.
  - intros ->. left. split; [done|]. intros r' Hr'.
    by apply elem_of_nil in Hr'.
  - destruct (capacity x >=? cap) eqn:Hfit; simpl.
    + destruct best as [b|].
      * destruct (capacity x <? capacity b) eqn:Hlt; intros Hsel;
          apply IH in Hsel as [[Heq Hall]|(pre & post & -> & Hc & Hb & Hpre & Hpost)].
        -- injection Heq as <-. right. exists [], rest.
           repeat split; [lia| |set_solver|done].
           intros b0 [= <-]. lia.
        -- right. exists (x :: pre), post. repeat split; [done| |..|done].
           ++ intros b0 [= <-]. specialize (Hb x eq_refl). lia.
           ++ intros r' [->|Hr']%elem_of_cons Hc'; [by apply Hb | by apply Hpre].
        -- injection Heq as <-. left. split; [done|].
           intros r' [->|Hr']%elem_of_cons Hc'; [lia | by apply Hall].
        -- right. exists (x :: pre), post. repeat split; [done|done|..|done].
           intros r' [->|Hr']%elem_of_cons Hc'; [|by apply Hpre].
           specialize (Hb b eq_refl). lia.
      * intros Hsel.
        apply IH in Hsel as [[Heq Hall]|(pre & post & -> & Hc & Hb & Hpre & Hpost)].
        -- injection Heq as <-. right. exists [], rest.
           repeat split; [lia|done|set_solver|done].
        -- right. exists (x :: pre), post. repeat split; [done|done|..|done].
           intros r' [->|Hr']%elem_of_cons Hc'; [by apply Hb | by apply Hpre].
    + intros Hsel.
      apply IH in Hsel as [[Heq Hall]|(pre & post & -> & Hc & Hb & Hpre & Hpost)].
      * left. split; [done|].
        intros r' [->|Hr']%elem_of_cons Hc'; [lia | by apply Hall].
      * right. exists (x :: pre), post. repeat split; [done|done|..|done].
        intros r' [->|Hr']%elem_of_cons Hc'; [lia | by apply Hpre].
Qed.

Lemma save_non_overlapping (repo : BookingRepository) (b : Booking) :
  non_overlapping repo ->
  (forall i ex, bookings_ repo !! i = Some ex -> roomId ex = roomId b ->
                ~ windows_overlap ex b) ->
  non_overlapping (save b repo).
Proof.
  intros Hinv Hb i j x y Hi Hj Hne Hroom. cbn in Hi, Hj.
  destruct (decide (i = Booking_id b)) as [->|Hib].
  - rewrite lookup_insert_eq in Hi. injection Hi as <-.
    rewrite lookup_insert_ne in Hj by done.
    intros Ho. apply (Hb j y Hj); [done | by apply windows_overlap_sym].
  - rewrite lookup_insert_ne in Hi by done.
    destruct (decide (j = Booking_id b)) as [->|Hjb].
    + rewrite lookup_insert_eq in Hj. injection Hj as <-. by apply (Hb i x).
    + rewrite lookup_insert_ne in Hj by done. by apply (Hinv i j).
Qed.

Lemma remove_non_overlapping (repo : BookingRepository) (i : string) :
  non_overlapping repo -> non_overlapping (remove i repo).
Proof.
  intros Hinv j k x y Hj Hk. cbn in Hj, Hk.
  apply lookup_delete_Some in Hj as [_ Hj].
  apply lookup_delete_Some in Hk as [_ Hk]. by apply Hinv.
Qed.

Lemma cancelMeeting_absent (i : string) (w : World) :
  findById (br_ w) i = None -> cancelMeeting i w = (false, w).
Proof. unfold cancelMeeting. by intros ->. Qed.

Lemma cancelMeeting_present (i : string) (w : World) (b : Booking) :
  findById (br_ w) i = Some b ->
  exists w', cancelMeeting i w = (true, w') /\
             br_ w' = remove i (br_ w) /\
             cal_repo_ w' = remove i (cal_repo_ w) /\
             findById (br_ w') i = None.
Proof.
  unfold cancelMeeting. intros ->. eexists. repeat split.
  cbn. apply lookup_delete_eq.
Qed.


Section Facts.

Variable toDate : time_point -> tm.
Variable uuid : nat -> string.
Context {strat_ : IRoomStrategy}.

Lemma isFree_true (repo : BookingRepository) (room : string) (b : Booking) :
  isFree toDate repo room b = true <->
  forall (i : string) (ex : Booking),
    bookings_ repo !! i = Some ex -> roomId ex = room ->
    toDate (start ex) = toDate (start b) -> ~ windows_overlap ex b.
Proof.
  unfold isFree, findByRoomAndDay. rewrite forallb_forall. split.
  - intros H i ex Hi Hr Hd. apply overlaps_false.
    apply negb_true_iff, H, list_elem_of_In, list_elem_of_filter.
    split; [done|]. apply list_elem_of_fmap. exists (i, ex).
    split; [done|]. by apply elem_of_map_to_list.
  - intros H ex Hin. apply negb_true_iff, overlaps_false.
    apply list_elem_of_In, list_elem_of_filter in Hin as [[Hr Hd] Hin].
    apply list_elem_of_fmap in Hin as [[i ex'] [-> Hin]].
    apply elem_of_map_to_list in Hin. by eapply H.
Qed.

(** Two overlapping single-day windows start on the same date. *)
Lemma single_day_overlap_same_date (a b : Booking) :
  single_day toDate a -> single_day toDate b -> windows_overlap a b ->
  toDate (start a) = toDate (start b).
Proof.
  intros Ha Hb [H1 H2].
  destruct (Z_le_gt_dec (start a) (start b)).
  - symmetry. apply Ha. lia.
  - apply Hb. lia.
Qed.


(** *** [bookMeeting] and [cancelMeeting], case by case *)

Lemma bookMeeting_no_room (req : Booking) (w : World) :
  select (findByCapacity (rr_ w) (headcount req)) (headcount req) = None ->
  bookMeeting toDate uuid req w = (None, w).
Proof. unfold bookMeeting, headcount. by intros ->. Qed.

Lemma bookMeeting_conflict (req : Booking) (w : World) (room : Room) :
  select (findByCapacity (rr_ w) (headcount req)) (headcount req)
    = Some room ->
  isFree toDate (cal_repo_ w) (Room_id room) req = false ->
  exists w', bookMeeting toDate uuid req w = (None, w') /\
             br_ w' = br_ w /\ cal_repo_ w' = cal_repo_ w.
Proof.
  unfold bookMeeting, headcount. intros -> Hfree. cbn.
  change (isFree toDate (cal_repo_ w) (Room_id room) _)
    with (isFree toDate (cal_repo_ w) (Room_id room) req).
  rewrite Hfree. cbn. eauto.
Qed.

Lemma bookMeeting_free (req : Booking) (w : World) (room : Room) :
  select (findByCapacity (rr_ w) (headcount req)) (headcount req)
    = Some room ->
  isFree toDate (cal_repo_ w) (Room_id room) req = true ->
  let b := booked (uuid (uuids_drawn w)) (Room_id room)
                  (start req) (end_ req) (attendees req) in
  exists w', bookMeeting toDate uuid req w = (Some (Booking_id b), w') /\
             br_ w' = save b (br_ w) /\
             cal_repo_ w' = save b (cal_repo_ w) /\
             rr_ w' = rr_ w /\ uuids_drawn w' = S (uuids_drawn w).
Proof.
  unfold bookMeeting, headcount. intros -> Hfree. cbn.
  change (isFree toDate (cal_repo_ w) (Room_id room) _)
    with (isFree toDate (cal_repo_ w) (Room_id room) req).
  rewrite Hfree. cbn. eexists. by repeat split.
Qed.

Lemma bookMeeting_none_keeps (req : Booking) (w : World) :
  fst (bookMeeting toDate uuid req w) = None ->
  br_ (snd (bookMeeting toDate uuid req w)) = br_ w /\
  cal_repo_ (snd (bookMeeting toDate uuid req w)) = cal_repo_ w.
Proof.
  destruct (select (findByCapacity (rr_ w) (headcount req)) (headcount req))
    as [room|] eqn:Hsel.
  - destruct (isFree toDate (cal_repo_ w) (Room_id room) req) eqn:Hfree.
    + destruct (bookMeeting_free req w room Hsel Hfree) as (w' & -> & _).
      discriminate.
    + destruct (bookMeeting_conflict req w room Hsel Hfree)
        as (w' & -> & ? & ?). done.
  - by rewrite bookMeeting_no_room.
Qed.

(** *** The invariant of a run *)

Lemma fresh_consistent (rooms : list Room) : consistent toDate (fresh rooms).
Proof.
  repeat split; cbn.
  - intros i j a b Hi. cbn in Hi. by rewrite lookup_empty in Hi.
  - intros i a Hi. cbn in Hi. by rewrite lookup_empty in Hi.
Qed.

Lemma step_consistent (w : World) (c : call) :
  consistent toDate w -> call_single_day toDate c ->
  consistent toDate (step toDate uuid w c).
Proof.
  intros (Heq & Hno & Hday) Hc. destruct c as [req|i]; cbn in *.
  - destruct (select (findByCapacity (rr_ w) (headcount req)) (headcount req))
      as [room|] eqn:Hsel.
    + destruct (isFree toDate (cal_repo_ w) (Room_id room) req) eqn:Hfree.
      * destruct (bookMeeting_free req w room Hsel Hfree)
          as (w' & -> & Hbr & Hcal & _ & _). cbn. unfold consistent.
        rewrite Hbr, Hcal, <- Heq. repeat split.
        -- apply save_non_overlapping; [done|].
           intros i ex Hi Hroom Ho.
           rewrite Heq in Hi.
           eapply isFree_true in Hfree; [by apply Hfree | done | done |].
           rewrite <- Heq in Hi.
           apply (single_day_overlap_same_date ex req); [by eapply Hday|done|].
           exact Ho.
        -- intros i a Hi. cbn in Hi.
           destruct (decide (i = uuid (uuids_drawn w))) as [->|Hne].
           ++ rewrite lookup_insert_eq in Hi. injection Hi as <-. exact Hc.
           ++ rewrite lookup_insert_ne in Hi by done. by eapply Hday.
      * destruct (bookMeeting_conflict req w room Hsel Hfree)
          as (w' & -> & Hbr & Hcal). cbn. unfold consistent.
        by rewrite Hbr, Hcal.
    + by rewrite bookMeeting_no_room.
  - destruct (findById (br_ w) i) as [b|] eqn:Hfind.
    + destruct (cancelMeeting_present i w b Hfind) as (w' & -> & Hbr & Hcal & _).
      cbn. unfold consistent. rewrite Hbr, Hcal, <- Heq. repeat split.
      * by apply remove_non_overlapping.
      * intros j a Hj. cbn in Hj. apply lookup_delete_Some in Hj as [_ Hj].
        by eapply Hday.
    + by rewrite cancelMeeting_absent.
Qed.

Lemma run_consistent (calls : list call) (w : World) :
  consistent toDate w -> Forall (call_single_day toDate) calls ->
  consistent toDate (run toDate uuid calls w).
Proof.
  revert w. induction calls as [|c calls IH]; intros w Hw Hcalls; [done|].
  apply Forall_cons in Hcalls as [Hc Hcalls]. cbn.
  apply IH; [by apply step_consistent | done].
Qed.

End Facts.

(** ** Conflict predicate *)

(** C4.  [overlaps existing candidate] is true exactly when
    [candidate.start < existing.end] and [existing.start < candidate.end].
    A booking that ends at T and one that starts at T do not conflict, in
    either order, and both can be booked: on a fresh service, when the
    strategy finds a room for each of them (the same room or not), both
    calls succeed and both bookings are persisted, each with its own
    window in the room selected for it, in the repository of the service
    and in the calendar's. *)
Theorem overlaps_half_open_windows (toDate : time_point -> tm)
    (uuid : nat -> string) `{IRoomStrategy} (existing candidate : Booking)
    (rooms : list Room) :
  (overlaps existing candidate = true <->
   start candidate < end_ existing /\ start existing < end_ candidate) /\
  (end_ existing = start candidate ->
   overlaps existing candidate = false /\
   overlaps candidate existing = false /\
   (forall r1 r2 : Room,
      select (findByCapacity (mkRoomRepository rooms) (headcount existing))
             (headcount existing) = Some r1 ->
      select (findByCapacity (mkRoomRepository rooms) (headcount candidate))
             (headcount candidate) = Some r2 ->
      let b1 := booked (uuid 0%nat) (Room_id r1) (start existing)
                       (end_ existing) (attendees existing) in
      let b2 := booked (uuid 1%nat) (Room_id r2) (start candidate)
                       (end_ candidate) (attendees candidate) in
      exists w1 w2,
        bookMeeting toDate uuid existing (fresh rooms)
          = (Some (uuid 0%nat), w1) /\
        bookMeeting toDate uuid candidate w1 = (Some (uuid 1%nat), w2) /\
        br_ w2 = save b2 (save b1 (br_ (fresh rooms))) /\
        cal_repo_ w2 = save b2 (save b1 (cal_repo_ (fresh rooms))) /\
        bookings_ (br_ w2) !! uuid 1%nat = Some b2 /\
        (uuid 0%nat <> uuid 1%nat ->
         bookings_ (br_ w2) !! uuid 0%nat = Some b1))).
Proof.
  split; [apply overlaps_true|]. intros Htouch.
  split; [apply overlaps_false; unfold windows_overlap; lia|].
  split; [apply overlaps_false; unfold windows_overlap; lia|].
  intros r1 r2 Hr1 Hr2 b1 b2.
  destruct (bookMeeting_free toDate uuid existing (fresh rooms) r1 Hr1)
    as (w1 & Hb1 & Hbr1 & Hcal1 & Hrr1 & Hn1).
  { apply isFree_true. intros i ex Hi. cbn in Hi. by rewrite lookup_empty in Hi. }
  destruct (bookMeeting_free toDate uuid candidate w1 r2)
    as (w2 & Hb2 & Hbr2 & Hcal2 & _).
  { by rewrite Hrr1. }
  { apply isFree_true. intros i ex Hi _ _. rewrite Hcal1 in Hi. cbn in Hi.
    apply lookup_insert_Some in Hi as [[_ <-]|[_ Hi]].
    - unfold windows_overlap. cbn. lia.
    - by rewrite lookup_empty in Hi. }
  rewrite Hn1 in Hb2, Hbr2, Hcal2. cbn in Hb1, Hb2, Hbr1, Hbr2, Hcal1, Hcal2.
  exists w1, w2. split; [exact Hb1|]. split; [exact Hb2|].
  split; [by rewrite Hbr2, Hbr1|]. split; [by rewrite Hcal2, Hcal1|].
  rewrite Hbr2, Hbr1. cbn. split; [apply lookup_insert_eq|].
  intros Hne. rewrite lookup_insert_ne by done. apply lookup_insert_eq.
Qed.

Lemma overlaps_half_open_windows_witness :
  exists w1 w2,
    bookMeeting hours tally (request 10 11 ["ann"]) (fresh [boardroom])
      = (Some (tally 0), w1) /\
    bookMeeting hours tally (request 11 12 ["bob"]) w1 = (Some (tally 1), w2) /\
    bookings_ (br_ w2) !! tally 1
      = Some (booked (tally 1) "board" 11 12 ["bob"]) /\
    bookings_ (br_ w2) !! tally 0
      = Some (booked (tally 0) "board" 10 11 ["ann"]).
Proof.
  destruct (overlaps_half_open_windows hours tally
              (request 10 11 ["ann"]) (request 11 12 ["bob"]) [boardroom])
    as [_ Htouch].
  destruct (Htouch eq_refl) as (_ & _ & Hboth).
  destruct (Hboth boardroom boardroom eq_refl eq_refl)
    as (w1 & w2 & H1 & H2 & _ & _ & Hnew & Hold).
  exists w1, w2. split; [exact H1|]. split; [exact H2|].
  split; [exact Hnew|]. apply Hold. discriminate.
Defined.

(** ** Smallest-fit selection *)

(** C5 (amended).  [SmallestFitStrategy::select] returns empty exactly when
    no candidate has capacity >= c; otherwise it returns a candidate of
    minimal capacity among those with capacity >= c, and among candidates
    of that capacity the one that comes first in the input: every fitting
    room before it is strictly larger, every fitting room after it is at
    least as large. *)
Theorem smallest_fit_first_of_minimal (rooms : list Room) (c : Z) :
  (SmallestFitStrategy_select rooms c = None <->
   forall r, r ∈ rooms -> capacity r < c) /\
  (forall r, SmallestFitStrategy_select rooms c = Some r ->
     exists pre post,
       rooms = pre ++ r :: post /\ c <= capacity r /\
       (forall r', r' ∈ pre -> c <= capacity r' -> capacity r < capacity r') /\
       (forall r', r' ∈ post -> c <= capacity r' -> capacity r <= capacity r')).
Proof.
  unfold SmallestFitStrategy_select. split.
  - rewrite select_loop_none. split; [by intros [_ ?] | by split].
  - intros r Hsel.
    apply select_loop_some in Hsel as [[? _]|(pre & post & ? & ? & _ & ? & ?)];
      [done|]. by exists pre, post.
Qed.

Lemma smallest_fit_first_of_minimal_witness :
  exists pre post,
    [room "a" 2; room "c" 4; room "b" 4; room "d" 8]
      = pre ++ room "c" 4 :: post /\
    3 <= 4 /\
    (forall r', r' ∈ pre -> 3 <= capacity r' -> 4 < capacity r') /\
    (forall r', r' ∈ post -> 3 <= capacity r' -> 4 <= capacity r').
Proof.
  apply (proj2 (smallest_fit_first_of_minimal
                  [room "a" 2; room "c" 4; room "b" 4; room "d" 8] 3)
               (room "c" 4)).
  reflexivity.
Defined.

(** C5, as stated, fails: of two fitting rooms of capacity 4 the one met
    first is returned, although the other has the smaller id. *)
Lemma smallest_fit_tie_follows_input_order :
  ~ (forall rooms c r,
       SmallestFitStrategy_select rooms c = Some r ->
       lowest_id_among_ties rooms c r).
Proof.
  intros Hclaim.
  apply (Hclaim [room "a" 2; room "c" 4; room "b" 4; room "d" 8] 3
                (room "c" 4) eq_refl (room "b" 4)).
  - set_solver.
  - cbn. lia.
  - reflexivity.
  - reflexivity.
Qed.

(** The answer depends on the order of the candidates. *)
Example smallest_fit_order_dependent :
  SmallestFitStrategy_select [room "b" 4; room "c" 4] 3 = Some (room "b" 4) /\
  SmallestFitStrategy_select [room "c" 4; room "b" 4] 3 = Some (room "c" 4).
Proof. split; reflexivity. Qed.

(** ** No double booking *)

(** C1 (amended).  Starting from empty repositories, after any sequence of
    bookMeeting and cancelMeeting calls in which every requested window
    lies within one calendar date, no two bookings persisted for the same
    room have overlapping half-open windows (windows that touch at an
    endpoint do not overlap). *)
Theorem single_day_bookings_never_overlap (toDate : time_point -> tm)
    (uuid : nat -> string) `{IRoomStrategy} (rooms : list Room)
    (calls : list call) :
  Forall (call_single_day toDate) calls ->
  non_overlapping (br_ (run toDate uuid calls (fresh rooms))).
Proof.
  intros Hcalls.
  apply (run_consistent toDate uuid calls (fresh rooms)); [|done].
  apply fresh_consistent.
Qed.

Lemma morning_single_day : Forall (call_single_day hours) morning.
Proof.
  repeat constructor; intros t Ht; cbn in Ht; unfold hours; cbn;
    assert (t = 10 \/ t = 11) as [-> | ->] by lia; reflexivity.
Defined.

Lemma single_day_bookings_never_overlap_witness :
  Forall (call_single_day hours) morning /\
  non_overlapping (br_ (run hours tally morning (fresh [boardroom]))).
Proof.
  split; [exact morning_single_day|].
  apply (single_day_bookings_never_overlap hours tally [boardroom] morning).
  exact morning_single_day.
Defined.

(** C1, as stated, fails: the conflict check only looks at the bookings of
    the date on which the request starts, so a request that starts the day
    before a stored meeting and runs over it is accepted. *)
Lemma overnight_bookings_overlap :
  ~ (forall (toDate : time_point -> tm) (uuid : nat -> string)
            (strat : IRoomStrategy) (rooms : list Room) (calls : list call),
       non_overlapping (br_ (run toDate uuid calls (fresh rooms)))).
Proof.
  intros Hclaim.
  apply (Hclaim hours tally SmallestFitStrategy [boardroom] overnight
                (tally 0) (tally 1)
                (booked (tally 0) "board" 130 131 ["ann"])
                (booked (tally 1) "board" 100 140 ["bob"])).
  - vm_compute. reflexivity.
  - vm_compute. reflexivity.
  - discriminate.
  - reflexivity.
  - unfold windows_overlap. cbn. lia.
Qed.

(** ** Malformed windows *)

(** C9 (amended).  bookMeeting does not screen the window: a request with
    end <= start goes through room selection and the conflict check like
    any other.  It is refused only when no room is selected or the check
    finds a conflict, which leaves the repository as it was; otherwise it
    is persisted with its window unchanged. *)
Theorem malformed_window_not_screened (toDate : time_point -> tm)
    (uuid : nat -> string) `{IRoomStrategy} (req : Booking) (w : World) :
  malformed req ->
  match select (findByCapacity (rr_ w) (headcount req)) (headcount req) with
  | None => bookMeeting toDate uuid req w = (None, w)
  | Some r =>
      if isFree toDate (cal_repo_ w) (Room_id r) req
      then exists w',
             bookMeeting toDate uuid req w = (Some (uuid (uuids_drawn w)), w') /\
             br_ w' = save (booked (uuid (uuids_drawn w)) (Room_id r)
                                   (start req) (end_ req) (attendees req))
                           (br_ w)
      else exists w',
             bookMeeting toDate uuid req w = (None, w') /\ br_ w' = br_ w
  end.
Proof.
  intros _.
  destruct (select (findByCapacity (rr_ w) (headcount req)) (headcount req))
    as [r|] eqn:Hsel; [|by apply bookMeeting_no_room].
  destruct (isFree toDate (cal_repo_ w) (Room_id r) req) eqn:Hfree.
  - destruct (bookMeeting_free toDate uuid req w r Hsel Hfree)
      as (w' & Hb & Hbr & _). by exists w'.
  - destruct (bookMeeting_conflict toDate uuid req w r Hsel Hfree)
      as (w' & Hb & Hbr & _). by exists w'.
Qed.

Lemma malformed_window_not_screened_witness :
  malformed (request 11 10 ["ann"]) /\
  exists w',
    bookMeeting hours tally (request 11 10 ["ann"]) (fresh [boardroom])
      = (Some (tally 0), w') /\
    br_ w' = save (booked (tally 0) "board" 11 10 ["ann"])
                  (br_ (fresh [boardroom])).
Proof.
  assert (Hbad : malformed (request 11 10 ["ann"]))
    by (unfold malformed; cbn; lia).
  split; [exact Hbad|].
  exact (malformed_window_not_screened hours tally (request 11 10 ["ann"])
           (fresh [boardroom]) Hbad).
Defined.

(** C9, as stated, fails: a request whose window ends before it starts is
    booked. *)
Lemma malformed_window_is_booked :
  ~ (forall (toDate : time_point -> tm) (uuid : nat -> string)
            (strat : IRoomStrategy) (req : Booking) (w : World),
       malformed req ->
       fst (bookMeeting toDate uuid req w) = None /\
       br_ (snd (bookMeeting toDate uuid req w)) = br_ w).
Proof.
  intros Hclaim.
  destruct (Hclaim hours tally SmallestFitStrategy (request 11 10 ["ann"])
                   (fresh [boardroom])) as [Hnone _].
  - unfold malformed. cbn. lia.
  - vm_compute in Hnone. discriminate.
Qed.

End MeetingProofs.

Module ParkingProofs.
Import Parking.

(** ** Helper facts *)

Lemma set_bookingRepo_same (st : ParkingService) :
  set_bookingRepo (bookingRepo_ st) st = st.
Proof. by destruct st. Qed.

Lemma findByVehicle_absent (r : BookingRepository) (v : string) :
  vehicleIndex_ r !! v = None ->
  BookingRepository.findByVehicle r v = (None, r).
Proof. unfold BookingRepository.findByVehicle. by intros ->. Qed.

Lemma findByVehicle_present (r : BookingRepository) (v i : string) :
  repo_wf r -> vehicleIndex_ r !! v = Some i ->
  exists b : Booking,
    bookings_ r !! i = Some b /\ Booking_id b = i /\ vehicleId b = v /\
    BookingRepository.findByVehicle r v = (Some b, r).
Proof.
  intros [Hid Hidx] Hv. destruct (Hidx v i Hv) as (b & Hb & Hveh).
  exists b. repeat split; [done|by apply Hid|done|].
  unfold BookingRepository.findByVehicle. by rewrite Hv, Hb.
Qed.

Lemma findByVehicle_wf (r : BookingRepository) (v : string) :
  repo_wf r -> snd (BookingRepository.findByVehicle r v) = r.
Proof.
  intros Hwf. destruct (vehicleIndex_ r !! v) as [i|] eqn:Hv.
  - destruct (findByVehicle_present r v i Hwf Hv) as (b & _ & _ & _ & ->). done.
  - by rewrite findByVehicle_absent.
Qed.


Lemma isOccupied_false (r : BookingRepository) (spot : string) :
  fst (isOccupied r spot) = false.
Proof.
  unfold isOccupied. by destruct (BookingRepository.findByVehicle r "").
Qed.

Lemma isOccupied_wf (r : BookingRepository) (spot : string) :
  repo_wf r -> isOccupied r spot = (false, r).
Proof.
  intros Hwf. unfold isOccupied.
  pose proof (findByVehicle_wf r "" Hwf) as Hsnd.
  destruct (BookingRepository.findByVehicle r "") as [all r']. cbn in Hsnd.
  by subst.
Qed.

Lemma free_and_compatible_iff (st : ParkingService) (vt : VehicleType.t)
    (spot : string) :
  free_and_compatible st vt spot <-> compatible (spotRepo_ st) vt spot.
Proof.
  unfold free_and_compatible. pose proof (isOccupied_false (bookingRepo_ st) spot).
  tauto.
Qed.

Lemma empty_repo_wf : repo_wf (mkBookingRepository ∅ ∅).
Proof.
  split; cbn.
  - intros i b Hi. by rewrite lookup_empty in Hi.
  - intros v i Hv. by rewrite lookup_empty in Hv.
Qed.

Lemma save_repo_wf (r : BookingRepository) (b : Booking) :
  repo_wf r -> bookings_ r !! Booking_id b = None ->
  repo_wf (BookingRepository.save b r).
Proof.
  intros [Hid Hidx] Hnew. split; cbn.
  - intros i x Hi. apply lookup_insert_Some in Hi as [[<- <-]|[_ Hi]];
      [done | by apply Hid].
  - intros v i Hv. apply lookup_insert_Some in Hv as [[<- <-]|[Hne Hv]].
    + exists b. by rewrite lookup_insert_eq.
    + destruct (Hidx v i Hv) as (x & Hx & Hveh). exists x. split; [|done].
      rewrite lookup_insert_ne; [done|]. intros Heq. rewrite Heq in Hnew.
      congruence.
Qed.

Lemma remove_repo_wf (r : BookingRepository) (i : string) :
  repo_wf r -> repo_wf (BookingRepository.remove i r).
Proof.
  intros [Hid Hidx]. unfold BookingRepository.remove.
  destruct (bookings_ r !! i) as [b|] eqn:Hb; [|done]. split; cbn.
  - intros j x Hj. apply lookup_delete_Some in Hj as [_ Hj]. by apply Hid.
  - intros v j Hv. apply lookup_delete_Some in Hv as [Hne Hv].
    destruct (Hidx v j Hv) as (x & Hx & Hveh). exists x. split; [|done].
    rewrite lookup_delete_ne; [done|]. intros ->. congruence.
Qed.

Lemma remove_present (r : BookingRepository) (i : string) (b : Booking) :
  bookings_ r !! i = Some b ->
  BookingRepository.remove i r =
  {| bookings_ := delete i (bookings_ r);
     vehicleIndex_ := delete (vehicleId b) (vehicleIndex_ r) |}.
Proof. unfold BookingRepository.remove. by intros ->. Qed.

Lemma leaveVehicle_absent (v : string) (now : time_point) (st : ParkingService) :
  vehicleIndex_ (bookingRepo_ st) !! v = None ->
  leaveVehicle v now st = (false, st).
Proof.
  intros Hv. unfold leaveVehicle. rewrite findByVehicle_absent by done.
  by rewrite set_bookingRepo_same.
Qed.

Lemma leaveVehicle_present (v i : string) (now : time_point)
    (st : ParkingService) :
  repo_wf (bookingRepo_ st) ->
  vehicleIndex_ (bookingRepo_ st) !! v = Some i ->
  exists b : Booking,
    bookings_ (bookingRepo_ st) !! i = Some b /\
    Booking_id b = i /\ vehicleId b = v /\
    BookingRepository.findByVehicle (bookingRepo_ st) v
      = (Some b, bookingRepo_ st) /\
    leaveVehicle v now st =
    (true,
     set_bookingRepo
       {| bookings_ := delete i (bookings_ (bookingRepo_ st));
          vehicleIndex_ := delete v (vehicleIndex_ (bookingRepo_ st)) |} st).
Proof.
  intros Hwf Hv.
  destruct (findByVehicle_present _ v i Hwf Hv) as (b & Hb & Hid & Hveh & Hfind).
  exists b. repeat split; try done.
  unfold leaveVehicle. rewrite Hfind. cbn. rewrite Hid.
  by rewrite (remove_present _ i b Hb), Hveh.
Qed.

(** [createParkingLot] leaves the booking repository alone. *)

Lemma create_spots_bookingRepo (uuid : nat -> string) (n : nat)
    (floor : string) (ty : SpotType.t) (st : ParkingService) :
  bookingRepo_ (create_spots uuid n floor ty st) = bookingRepo_ st.
Proof.
  revert st. induction n as [|n IH]; intros st; [done|].
  cbn. by rewrite IH.
Qed.

Lemma create_floor_spots_bookingRepo (uuid : nat -> string)
    (counts : SpotType.t -> option Z) (floor : string) (st : ParkingService) :
  bookingRepo_ (create_floor_spots uuid counts floor st) = bookingRepo_ st.
Proof.
  unfold create_floor_spots. cbn.
  repeat match goal with
         | |- context [counts ?ty] => destruct (counts ty)
         end;
    by rewrite ?create_spots_bookingRepo.
Qed.

Lemma create_levels_bookingRepo (uuid : nat -> string) (n : nat) (lvl : Z)
    (lot : string) (counts : SpotType.t -> option Z) (st : ParkingService) :
  bookingRepo_ (create_levels uuid n lvl lot counts st) = bookingRepo_ st.
Proof.
  revert lvl st. induction n as [|n IH]; intros lvl st; [done|].
  cbn [create_levels newUUID].
  by rewrite IH, create_floor_spots_bookingRepo.
Qed.

Lemma fresh_lot_bookingRepo (uuid : nat -> string) (levels spotsPerLevel : Z)
    (counts : SpotType.t -> option Z) :
  bookingRepo_ (fresh_lot uuid levels spotsPerLevel counts)
  = mkBookingRepository ∅ ∅.
Proof.
  unfold fresh_lot, createParkingLot. cbn. by rewrite create_levels_bookingRepo.
Qed.

(** The lock table stays in ascending key order. *)

Lemma mutexes_touch_hd (k k' : string) (keys : list string) :
  key_lt k' k -> HdRel key_lt k' keys ->
  HdRel key_lt k' (mutexes_touch k keys).
Proof.
  intros Hk Hhd. destruct keys as [|k0 rest]; cbn; [by constructor|].
  apply HdRel_inv in Hhd.
  destruct (String.compare k k0); by constructor.
Qed.

Lemma mutexes_touch_sorted (k : string) (keys : list string) :
  Sorted key_lt keys -> Sorted key_lt (mutexes_touch k keys).
Proof.
  induction keys as [|k' rest IH]; intros Hs; cbn.
  - by repeat constructor.
  - apply Sorted_inv in Hs as [Hrest Hhd].
    destruct (String.compare k k') eqn:Hcmp.
    + by constructor.
    + constructor; [by constructor | by constructor].
    + constructor; [by apply IH|]. apply mutexes_touch_hd; [|done].
      unfold key_lt. rewrite String.compare_antisym, Hcmp. done.
Qed.

Lemma create_spots_sorted (uuid : nat -> string) (n : nat) (floor : string)
    (ty : SpotType.t) (st : ParkingService) :
  Sorted key_lt (mutexes_ st) ->
  Sorted key_lt (mutexes_ (create_spots uuid n floor ty st)).
Proof.
  revert st. induction n as [|n IH]; intros st Hs; [done|].
  cbn. apply IH. cbn. by apply mutexes_touch_sorted.
Qed.

Lemma create_floor_spots_sorted (uuid : nat -> string)
    (counts : SpotType.t -> option Z) (floor : string) (st : ParkingService) :
  Sorted key_lt (mutexes_ st) ->
  Sorted key_lt (mutexes_ (create_floor_spots uuid counts floor st)).
Proof.
  intros Hs. unfold create_floor_spots. cbn [fold_left].
  repeat match goal with
         | |- context [counts ?ty] => destruct (counts ty)
         end;
    repeat apply create_spots_sorted; done.
Qed.

Lemma create_levels_sorted (uuid : nat -> string) (n : nat) (lvl : Z)
    (lot : string) (counts : SpotType.t -> option Z) (st : ParkingService) :
  Sorted key_lt (mutexes_ st) ->
  Sorted key_lt (mutexes_ (create_levels uuid n lvl lot counts st)).
Proof.
  revert lvl st. induction n as [|n IH]; intros lvl st Hs; [done|].
  cbn [create_levels newUUID]. by apply IH, create_floor_spots_sorted.
Qed.

Lemma parkVehicle_scan_mutexes (uuid : nat -> string) (keys : list string)
    (v : string) (vt : VehicleType.t) (now : time_point) (st : ParkingService) :
  mutexes_ (snd (parkVehicle_scan uuid keys v vt now st)) = mutexes_ st.
Proof.
  revert st. induction keys as [|spot rest IH]; intros st; [done|]. cbn.
  destruct (isOccupied (bookingRepo_ st) spot) as [[] r1];
    [by rewrite IH|].
  destruct (ParkingSpotRepository.findById _ spot) as [sp|]; [|by rewrite IH].
  destruct (fits vt (type sp)); cbn; [done | by rewrite IH].
Qed.

Lemma step_mutexes (uuid : nat -> string) (st : ParkingService) (c : call) :
  mutexes_ (step uuid st c) = mutexes_ st.
Proof.
  destruct c as [v vt now|v now]; cbn.
  - apply parkVehicle_scan_mutexes.
  - unfold leaveVehicle.
    destruct (BookingRepository.findByVehicle (bookingRepo_ st) v) as [[b|] r1];
      done.
Qed.

Lemma lock_table_ascending (uuid : nat -> string) (levels spotsPerLevel : Z)
    (counts : SpotType.t -> option Z) (calls : list call) :
  Sorted key_lt
    (mutexes_ (run uuid calls (fresh_lot uuid levels spotsPerLevel counts))).
Proof.
  assert (Hrun : forall st, mutexes_ (run uuid calls st) = mutexes_ st).
  { unfold run. induction calls as [|c calls IH]; intros st; [done|].
    cbn. by rewrite IH, step_mutexes. }
  rewrite Hrun. unfold fresh_lot, createParkingLot. cbn.
  apply create_levels_sorted. cbn. constructor.
Qed.

Section Facts.

Variable uuid : nat -> string.

(** *** The scan of [parkVehicle] *)

Lemma parkVehicle_scan_first_fit (keys : list string) (v : string)
    (vt : VehicleType.t) (now : time_point) (st : ParkingService) :
  match parkVehicle_scan uuid keys v vt now st with
  | (Some i, st') =>
      exists pre spot post,
        keys = pre ++ spot :: post /\
        (forall k, k ∈ pre -> ~ compatible (spotRepo_ st) vt k) /\
        compatible (spotRepo_ st) vt spot /\
        i = uuid (uuids_drawn st) /\
        bookings_ (bookingRepo_ st') !! i
          = Some (mkBooking i spot v vt now None)
  | (None, st') =>
      forall k, k ∈ keys -> ~ compatible (spotRepo_ st) vt k
  end.
Proof.
  revert st. induction keys as [|spot rest IH]; intros st; cbn.
  - intros k Hk. by apply elem_of_nil in Hk.
  - pose proof (isOccupied_false (bookingRepo_ st) spot) as Hocc.
    destruct (isOccupied (bookingRepo_ st) spot) as [occ r1].
    cbn in Hocc. subst occ.
    set (st1 := set_bookingRepo r1 st).
    assert (Hskip : ~ compatible (spotRepo_ st) vt spot ->
      match parkVehicle_scan uuid rest v vt now st1 with
      | (Some i, st') =>
          exists pre spot0 post,
            spot :: rest = pre ++ spot0 :: post /\
            (forall k, k ∈ pre -> ~ compatible (spotRepo_ st) vt k) /\
            compatible (spotRepo_ st) vt spot0 /\
            i = uuid (uuids_drawn st) /\
            bookings_ (bookingRepo_ st') !! i
              = Some (mkBooking i spot0 v vt now None)
      | (None, st') =>
          forall k, k ∈ spot :: rest -> ~ compatible (spotRepo_ st) vt k
      end).
    { intros Hno. specialize (IH st1).
      destruct (parkVehicle_scan uuid rest v vt now st1) as [[i|] st'].
      - destruct IH as (pre & spot0 & post & -> & Hpre & Hfit & Hi & Hb).
        exists (spot :: pre), spot0, post. repeat split; try done.
        intros k [->|Hk]%elem_of_cons; [done | by apply Hpre].
      - intros k [->|Hk]%elem_of_cons; [done | by apply IH]. }
    change (spotRepo_ st1) with (spotRepo_ st).
    destruct (ParkingSpotRepository.findById (spotRepo_ st) spot)
      as [sp|] eqn:Hsp.
    + destruct (fits vt (type sp)) eqn:Hfits; cbn.
      * exists [], spot, rest. repeat split; try done.
        -- intros k Hk. by apply elem_of_nil in Hk.
        -- by exists sp.
        -- apply lookup_insert_eq.
      * apply Hskip. intros (sp' & Hsp' & Hfits'). congruence.
    + apply Hskip. intros (sp' & Hsp' & _). congruence.
Qed.

Lemma parkVehicle_scan_wf (keys : list string) (v : string)
    (vt : VehicleType.t) (now : time_point) (st : ParkingService) :
  repo_wf (bookingRepo_ st) ->
  parkVehicle_scan uuid keys v vt now st = (None, st) \/
  exists spot,
    parkVehicle_scan uuid keys v vt now st =
    (Some (uuid (uuids_drawn st)),
     mkParkingService (lotRepo_ st) (floorRepo_ st) (spotRepo_ st)
       (BookingRepository.save
          (mkBooking (uuid (uuids_drawn st)) spot v vt now None)
          (bookingRepo_ st))
       (mutexes_ st) (S (uuids_drawn st))).
Proof.
  intros Hwf. induction keys as [|spot rest IH]; cbn; [by left|].
  rewrite (isOccupied_wf _ spot Hwf), set_bookingRepo_same.
  destruct (ParkingSpotRepository.findById (spotRepo_ st) spot)
    as [sp|]; [|done].
  destruct (fits vt (type sp)); [|done]. cbn. right. by exists spot.
Qed.

(** *** The invariant of a run *)

Hypothesis uuid_collision_free : collision_free uuid.

Lemma fresh_lot_wf (levels spotsPerLevel : Z)
    (counts : SpotType.t -> option Z) :
  service_wf uuid (fresh_lot uuid levels spotsPerLevel counts).
Proof.
  split.
  - rewrite fresh_lot_bookingRepo. apply empty_repo_wf.
  - intros i [b Hb]. rewrite fresh_lot_bookingRepo in Hb. cbn in Hb.
    by rewrite lookup_empty in Hb.
Qed.

Lemma step_service_wf (st : ParkingService) (c : call) :
  service_wf uuid st -> service_wf uuid (step uuid st c).
Proof.
  intros [Hwf Hids]. destruct c as [v vt now|v now]; cbn.
  - unfold parkVehicle.
    destruct (parkVehicle_scan_wf (mutexes_ st) v vt now st Hwf)
      as [->|[spot ->]]; [done|]. cbn. split; cbn.
    + apply save_repo_wf; [done|]. cbn.
      destruct (bookings_ (bookingRepo_ st) !! uuid (uuids_drawn st))
        eqn:Hold; [|done].
      destruct (Hids (uuid (uuids_drawn st))) as (k & Hk & Heq); [by eexists|].
      apply uuid_collision_free in Heq. lia.
    + intros i [b Hb]. cbn in Hb.
      apply lookup_insert_Some in Hb as [[<- _]|[_ Hb]].
      * exists (uuids_drawn st). cbn. split; [lia|done].
      * destruct (Hids i) as (k & Hk & Heq); [by eexists|].
        exists k. cbn. split; [lia|done].
  - destruct (vehicleIndex_ (bookingRepo_ st) !! v) as [i|] eqn:Hv.
    + destruct (leaveVehicle_present v i now st Hwf Hv)
        as (b & Hb & Hid & Hveh & _ & ->). cbn. split; cbn.
      * rewrite <- Hveh, <- (remove_present _ i b Hb).
        by apply remove_repo_wf.
      * intros j [x Hx]. cbn in Hx. apply lookup_delete_Some in Hx as [_ Hx].
        apply Hids. by eexists.
    + by rewrite leaveVehicle_absent.
Qed.

Lemma run_service_wf (calls : list call) (st : ParkingService) :
  service_wf uuid st -> service_wf uuid (run uuid calls st).
Proof.
  revert st. induction calls as [|c calls IH]; intros st Hst; [done|].
  cbn. by apply IH, step_service_wf.
Qed.

End Facts.

(** ** Occupancy *)

(** C2 (defect in the code).  [isOccupied] answers false whatever is
    stored.  On a lot with one compact spot: parking a car succeeds and
    stores an active booking for the spot, yet [isOccupied] reports the
    spot free and [getAvailableSpots(Car)] still lists it. *)
Theorem parked_spot_still_listed :
  let st := run tally one_car small_lot in
  fst (parkVehicle tally "KA01" VehicleType.Car 100 small_lot)
    = Some (tally 3) /\
  bookings_ (bookingRepo_ st) !! tally 3 = Some first_car /\
  has_active_booking (bookingRepo_ st) (tally 2) /\
  fst (isOccupied (bookingRepo_ st) (tally 2)) = false /\
  fst (getAvailableSpots VehicleType.Car st) = Some [tally 2].
Proof.
  assert (Hb : bookings_ (bookingRepo_ (run tally one_car small_lot)) !! tally 3
               = Some first_car) by (vm_compute; reflexivity).
  cbv zeta. split; [|split; [|split; [|split]]].
  - vm_compute. reflexivity.
  - exact Hb.
  - exists (tally 3), first_car. split; [exact Hb|]. split; reflexivity.
  - apply isOccupied_false.
  - vm_compute. reflexivity.
Qed.

(** C3 (defect in the code).  Two cars parked one after the other on a lot
    with a single compact spot both get that spot: it then has two
    bookings without end. *)
Theorem two_cars_share_a_spot :
  ~ at_most_one_active (bookingRepo_ (run tally two_cars small_lot)).
Proof.
  intros Hone.
  assert (Heq : tally 3 = tally 4); [|discriminate Heq].
  apply (Hone (tally 3) (tally 4) first_car
              (mkBooking (tally 4) (tally 2) "KA02" VehicleType.Car 101 None));
    try reflexivity; vm_compute; reflexivity.
Qed.

(** ** First fit *)

(** [fits] is the fit table: a motorcycle fits any spot, a car fits
    compact and large spots, a truck fits large spots only.  The scan of
    parkVehicle books the first spot, in the iteration order of the lock
    table, that passes its two tests (the answer of [isOccupied], the fit
    table), and returns empty when no spot does. *)
Theorem first_fit_follows_fit_table (uuid : nat -> string)
    (v : VehicleType.t) (s : SpotType.t) (vehicle : string)
    (vt : VehicleType.t) (now : time_point) (st : ParkingService) :
  (fits v s = true <->
   v = VehicleType.Motorcycle \/
   (v = VehicleType.Car /\ (s = SpotType.Compact \/ s = SpotType.Large)) \/
   (v = VehicleType.Truck /\ s = SpotType.Large)) /\
  match parkVehicle uuid vehicle vt now st with
  | (Some i, st') =>
      exists pre spot post,
        mutexes_ st = pre ++ spot :: post /\
        (forall k, k ∈ pre -> ~ free_and_compatible st vt k) /\
        free_and_compatible st vt spot /\
        bookings_ (bookingRepo_ st') !! i
          = Some (mkBooking i spot vehicle vt now None)
  | (None, _) =>
      forall k, k ∈ mutexes_ st -> ~ free_and_compatible st vt k
  end.
Proof.
  split.
  - destruct v, s; cbn; intuition congruence.
  - unfold parkVehicle.
    pose proof (parkVehicle_scan_first_fit uuid (mutexes_ st) vehicle vt now st)
      as Hscan.
    destruct (parkVehicle_scan uuid (mutexes_ st) vehicle vt now st)
      as [[i|] st'].
    + destruct Hscan as (pre & spot & post & Hkeys & Hpre & Hfit & _ & Hb).
      exists pre, spot, post. split; [done|]. split; [|split; [|done]].
      * intros k Hk Hfc. apply (Hpre k Hk).
        exact (proj1 (free_and_compatible_iff st vt k) Hfc).
      * exact (proj2 (free_and_compatible_iff st vt spot) Hfit).
    + intros k Hk Hfc. apply (Hscan k Hk).
      exact (proj1 (free_and_compatible_iff st vt k) Hfc).
Qed.

(** C6 (defect in the code).  The scan follows the fit table, but the
    spot it books need not be free.  On a lot with a single compact spot
    that already holds the active booking of a first car, parkVehicle of
    a second car does not return empty: it books that same spot again,
    because [isOccupied] reports every spot free. *)
Theorem occupied_spot_is_booked_again :
  let st := run tally one_car small_lot in
  mutexes_ st = [tally 2] /\
  bookings_ (bookingRepo_ st) !! tally 3 = Some first_car /\
  has_active_booking (bookingRepo_ st) (tally 2) /\
  fst (parkVehicle tally "KA02" VehicleType.Car 101 st) = Some (tally 4) /\
  bookings_ (bookingRepo_
               (snd (parkVehicle tally "KA02" VehicleType.Car 101 st)))
    !! tally 4
  = Some (mkBooking (tally 4) (tally 2) "KA02" VehicleType.Car 101 None).
Proof.
  assert (Hb : bookings_ (bookingRepo_ (run tally one_car small_lot)) !! tally 3
               = Some first_car) by (vm_compute; reflexivity).
  cbv zeta. split; [|split; [|split; [|split]]].
  - vm_compute. reflexivity.
  - exact Hb.
  - exists (tally 3), first_car. split; [exact Hb|]. split; reflexivity.
  - vm_compute. reflexivity.
  - vm_compute. reflexivity.
Qed.

(** ** Release *)

(** A car that was parked twice leaves once: its first booking stays in
    the store, out of reach of the vehicle index. *)
Example twice_parked_leaves_once :
  let st := run tally parked_twice small_lot in
  bookings_ (bookingRepo_ st) !! tally 3 = Some first_car /\
  fst (BookingRepository.findByVehicle (bookingRepo_ st) "KA01") = None /\
  fst (leaveVehicle "KA01" 170 st) = false.
Proof. cbv zeta. split; [|split]; vm_compute; reflexivity. Qed.

(** C8 (amended).  In a service reached from a freshly created lot, with a
    generator that never repeats, leaveVehicle(V) for a vehicle whose
    booking b is found returns true and deletes the record: the store no
    longer holds b, nor the index entry of V, and the other bookings and
    index entries are as before. *)
Theorem leaveVehicle_deletes_record (uuid : nat -> string)
    (levels spotsPerLevel : Z) (counts : SpotType.t -> option Z)
    (calls : list call) (v : string) (now : time_point) (b : Booking) :
  collision_free uuid ->
  let st := run uuid calls (fresh_lot uuid levels spotsPerLevel counts) in
  fst (BookingRepository.findByVehicle (bookingRepo_ st) v) = Some b ->
  exists st',
    leaveVehicle v now st = (true, st') /\
    bookings_ (bookingRepo_ st') !! Booking_id b = None /\
    bookings_ (bookingRepo_ st')
      = delete (Booking_id b) (bookings_ (bookingRepo_ st)) /\
    vehicleIndex_ (bookingRepo_ st')
      = delete v (vehicleIndex_ (bookingRepo_ st)).
Proof.
  intros Hfree st Hfind.
  destruct (run_service_wf uuid Hfree calls _
              (fresh_lot_wf uuid levels spotsPerLevel counts)) as [Hwf _].
  fold st in Hwf.
  destruct (vehicleIndex_ (bookingRepo_ st) !! v) as [i|] eqn:Hv.
  - destruct (leaveVehicle_present v i now st Hwf Hv)
      as (b' & Hb & Hid & Hveh & Hfind' & Hleave).
    rewrite Hfind' in Hfind. injection Hfind as <-. subst i.
    eexists. split; [exact Hleave|]. cbn. split; [apply lookup_delete_eq|done].
  - rewrite findByVehicle_absent in Hfind by done. discriminate.
Qed.

Lemma leaveVehicle_deletes_record_witness :
  collision_free tally /\
  fst (BookingRepository.findByVehicle
         (bookingRepo_ (run tally one_car small_lot)) "KA01") = Some first_car /\
  exists st',
    leaveVehicle "KA01" 160 (run tally one_car small_lot) = (true, st') /\
    bookings_ (bookingRepo_ st') !! tally 3 = None /\
    bookings_ (bookingRepo_ st')
      = delete (tally 3) (bookings_ (bookingRepo_ (run tally one_car small_lot))) /\
    vehicleIndex_ (bookingRepo_ st')
      = delete "KA01" (vehicleIndex_ (bookingRepo_ (run tally one_car small_lot))).
Proof.
  assert (Hfind : fst (BookingRepository.findByVehicle
                         (bookingRepo_ (run tally one_car small_lot)) "KA01")
                  = Some first_car) by (vm_compute; reflexivity).
  split; [exact tally_collision_free|]. split; [exact Hfind|].
  exact (leaveVehicle_deletes_record tally 1 1 one_compact one_car "KA01" 160
           first_car tally_collision_free Hfind).
Defined.

(** C8, as stated, fails: after the car has left, the store holds no
    record under its booking id, stamped or not. *)
Lemma leaveVehicle_keeps_no_record :
  ~ (forall (st : ParkingService) (v : string) (now : time_point)
            (b : Booking),
       fst (BookingRepository.findByVehicle (bookingRepo_ st) v) = Some b ->
       end_ b = None ->
       fst (leaveVehicle v now st) = true ->
       bookings_ (bookingRepo_ (snd (leaveVehicle v now st))) !! Booking_id b
       = Some (stamped b now)).
Proof.
  intros Hclaim.
  specialize (Hclaim (run tally one_car small_lot) "KA01" 160 first_car).
  assert (Hgone :
    bookings_ (bookingRepo_ (snd (leaveVehicle "KA01" 160
                                    (run tally one_car small_lot))))
      !! Booking_id first_car = None) by (vm_compute; reflexivity).
  rewrite Hclaim in Hgone; [discriminate| | |]; vm_compute; reflexivity.
Qed.

End ParkingProofs.

(* ===================================================================== *)
(** * Release and failed allocation, over both services                   *)
(* ===================================================================== *)

Module ReservationProofs.

#[local] Existing Instance Meeting.SmallestFitStrategy.




(** C10.  A failed allocation leaves the stored reservations as they were.
    When bookMeeting returns nullopt, be it for want of a room or for a
    conflict found under the lock, the booking repository (and the
    calendar's) is unchanged; when parkVehicle returns nullopt, in any
    service reached from a freshly created lot with a generator that never
    repeats, the bookings map and the vehicle index are unchanged. *)
Theorem failed_allocation_keeps_repository (toDate : time_point -> Meeting.tm)
    (uuid : nat -> string) `{Meeting.IRoomStrategy}
    (req : Meeting.Booking) (w : Meeting.World)
    (levels spotsPerLevel : Z) (counts : Parking.SpotType.t -> option Z)
    (calls : list Parking.call) (v : string) (vt : Parking.VehicleType.t)
    (now : time_point) :
  collision_free uuid ->
  let st :=
    Parking.run uuid calls
      (Parking.fresh_lot uuid levels spotsPerLevel counts) in
  (fst (Meeting.bookMeeting toDate uuid req w) = None ->
   Meeting.br_ (snd (Meeting.bookMeeting toDate uuid req w)) = Meeting.br_ w /\
   Meeting.cal_repo_ (snd (Meeting.bookMeeting toDate uuid req w))
     = Meeting.cal_repo_ w) /\
  (fst (Parking.parkVehicle uuid v vt now st) = None ->
   Parking.bookingRepo_ (snd (Parking.parkVehicle uuid v vt now st))
     = Parking.bookingRepo_ st).
Proof.
  intros Hfree st. split; [apply MeetingProofs.bookMeeting_none_keeps|].
  destruct (ParkingProofs.run_service_wf uuid Hfree calls _
              (ParkingProofs.fresh_lot_wf uuid levels spotsPerLevel counts))
    as [Hwf _].
  fold st in Hwf. unfold Parking.parkVehicle.
  destruct (ParkingProofs.parkVehicle_scan_wf uuid (Parking.mutexes_ st)
              v vt now st Hwf) as [->|[spot ->]]; [done|discriminate].
Qed.

Lemma failed_allocation_keeps_repository_witness :
  collision_free tally /\
  fst (Meeting.bookMeeting Meeting.hours tally
         (Meeting.request 10 11 ["bob"])
         (Meeting.run Meeting.hours tally Meeting.one_meeting
                      (Meeting.fresh [Meeting.boardroom]))) = None /\
  fst (Parking.parkVehicle tally "KA02" Parking.VehicleType.Truck 170
         (Parking.run tally Parking.one_car Parking.small_lot)) = None /\
  Meeting.br_
    (snd (Meeting.bookMeeting Meeting.hours tally
            (Meeting.request 10 11 ["bob"])
            (Meeting.run Meeting.hours tally Meeting.one_meeting
                         (Meeting.fresh [Meeting.boardroom]))))
  = Meeting.br_ (Meeting.run Meeting.hours tally Meeting.one_meeting
                             (Meeting.fresh [Meeting.boardroom])) /\
  Parking.bookingRepo_
    (snd (Parking.parkVehicle tally "KA02" Parking.VehicleType.Truck 170
            (Parking.run tally Parking.one_car Parking.small_lot)))
  = Parking.bookingRepo_ (Parking.run tally Parking.one_car Parking.small_lot).
Proof.
  destruct (failed_allocation_keeps_repository Meeting.hours tally
              (Meeting.request 10 11 ["bob"])
              (Meeting.run Meeting.hours tally Meeting.one_meeting
                           (Meeting.fresh [Meeting.boardroom]))
              1 1 Parking.one_compact Parking.one_car "KA02"
              Parking.VehicleType.Truck 170 tally_collision_free)
    as [Hmeet Hpark].
  assert (Hm : fst (Meeting.bookMeeting Meeting.hours tally
                      (Meeting.request 10 11 ["bob"])
                      (Meeting.run Meeting.hours tally Meeting.one_meeting
                                   (Meeting.fresh [Meeting.boardroom]))) = None)
    by (vm_compute; reflexivity).
  assert (Hp : fst (Parking.parkVehicle tally "KA02" Parking.VehicleType.Truck
                      170 (Parking.run tally Parking.one_car Parking.small_lot))
               = None) by (vm_compute; reflexivity).
  split; [exact tally_collision_free|]. split; [exact Hm|]. split; [exact Hp|].
  split; [exact (proj1 (Hmeet Hm)) | exact (Hpark Hp)].
Defined.

End ReservationProofs.

(* ===================================================================== *)
(** * Further properties of the parking lot                               *)
(* ===================================================================== *)

Module ParkingExtras.
Import Parking ParkingProofs.

(** ** The lock table *)

Lemma mutexes_touch_elem (k k' : string) (keys : list string) :
  k' ∈ mutexes_touch k keys <-> k' = k \/ k' ∈ keys.
Proof.
  induction keys as [|k0 rest IH]; cbn.
  - rewrite elem_of_cons, elem_of_nil. tauto.
  - destruct (String.compare k k0) eqn:Hcmp.
    + apply String.compare_eq_iff in Hcmp as ->. rewrite elem_of_cons. tauto.
    + apply elem_of_cons.
    + rewrite !elem_of_cons, IH. tauto.
Qed.

Lemma mutexes_touch_length (k : string) (keys : list string) :
  k ∉ keys -> length (mutexes_touch k keys) = S (length keys).
Proof.
  induction keys as [|k0 rest IH]; intros Hk; cbn; [done|].
  apply not_elem_of_cons in Hk as [Hne Hk].
  destruct (String.compare k k0) eqn:Hcmp.
  - by apply String.compare_eq_iff in Hcmp.
  - done.
  - cbn. by rewrite IH.
Qed.

Lemma parkVehicle_scan_spotRepo (uuid : nat -> string) (keys : list string)
    (v : string) (vt : VehicleType.t) (now : time_point) (st : ParkingService) :
  spotRepo_ (snd (parkVehicle_scan uuid keys v vt now st)) = spotRepo_ st.
Proof.
  revert st. induction keys as [|spot rest IH]; intros st; [done|]. cbn.
  destruct (isOccupied (bookingRepo_ st) spot) as [[] r1];
    [by rewrite IH|].
  destruct (ParkingSpotRepository.findById _ spot) as [sp|]; [|by rewrite IH].
  destruct (fits vt (type sp)); cbn; [done | by rewrite IH].
Qed.

Lemma step_spotRepo (uuid : nat -> string) (st : ParkingService) (c : call) :
  spotRepo_ (step uuid st c) = spotRepo_ st.
Proof.
  destruct c as [v vt now|v now]; cbn.
  - apply parkVehicle_scan_spotRepo.
  - unfold leaveVehicle.
    destruct (BookingRepository.findByVehicle (bookingRepo_ st) v) as [[b|] r1];
      done.
Qed.

Lemma run_catalog (uuid : nat -> string) (calls : list call)
    (st : ParkingService) :
  spotRepo_ (run uuid calls st) = spotRepo_ st /\
  mutexes_ (run uuid calls st) = mutexes_ st.
Proof.
  unfold run. revert st. induction calls as [|c calls IH]; intros st; [done|].
  cbn. destruct (IH (step uuid st c)) as [-> ->].
  by rewrite step_spotRepo, step_mutexes.
Qed.

(** ** [createParkingLot] *)

(** One turn of the innermost loop. *)
Lemma create_spots_S (uuid : nat -> string) (n : nat) (floor : string)
    (ty : SpotType.t) (st : ParkingService) :
  create_spots uuid (S n) floor ty st =
  create_spots uuid n floor ty
    (mkParkingService (lotRepo_ st) (floorRepo_ st)
       (ParkingSpotRepository.save
          (mkParkingSpot (uuid (uuids_drawn st)) floor ty) (spotRepo_ st))
       (bookingRepo_ st)
       (mutexes_touch (uuid (uuids_drawn st)) (mutexes_ st))
       (S (uuids_drawn st))).
Proof. reflexivity. Qed.

Lemma create_floor_spots_eq (uuid : nat -> string)
    (counts : SpotType.t -> option Z) (floor : string) (st : ParkingService) :
  create_floor_spots uuid counts floor st =
  create_spots uuid (Z.to_nat (default 0 (counts SpotType.Large))) floor
    SpotType.Large
    (create_spots uuid (Z.to_nat (default 0 (counts SpotType.Compact))) floor
       SpotType.Compact
       (create_spots uuid (Z.to_nat (default 0 (counts SpotType.Motorcycle)))
          floor SpotType.Motorcycle st)).
Proof.
  unfold create_floor_spots. cbn [fold_left].
  by destruct (counts SpotType.Motorcycle), (counts SpotType.Compact),
    (counts SpotType.Large).
Qed.

Lemma create_levels_S (uuid : nat -> string) (n : nat) (lvl : Z)
    (lot : string) (counts : SpotType.t -> option Z) (st : ParkingService) :
  create_levels uuid (S n) lvl lot counts st =
  create_levels uuid n (lvl + 1) lot counts
    (create_floor_spots uuid counts (uuid (uuids_drawn st))
       (mkParkingService (lotRepo_ st)
          (ParkingFloorRepository.save
             (mkParkingFloor (uuid (uuids_drawn st)) lot lvl) (floorRepo_ st))
          (spotRepo_ st) (bookingRepo_ st) (mutexes_ st)
          (S (uuids_drawn st)))).
Proof. reflexivity. Qed.

Lemma empty_service_lot_wf : lot_wf empty_service.
Proof.
  split; cbn.
  - intros k. rewrite lookup_empty, elem_of_nil. split; [done|by intros [??]].
  - intros k sp Hk. by rewrite lookup_empty in Hk.
Qed.

Lemma create_spots_lot_wf (uuid : nat -> string) (n : nat) (floor : string)
    (ty : SpotType.t) (st : ParkingService) :
  lot_wf st -> lot_wf (create_spots uuid n floor ty st).
Proof.
  revert st. induction n as [|n IH]; intros st [Hkeys Hid]; [done|].
  rewrite create_spots_S. apply IH. split; cbn.
  - intros k. rewrite mutexes_touch_elem, lookup_insert_is_Some, Hkeys.
    destruct (decide (uuid (uuids_drawn st) = k)) as [<-|Hne]; [tauto|].
    split; [intros [->|?]; [done|by right] | intros [?|[_ ?]]; [done|by right]].
  - intros k sp [[<- <-]|[_ Hk]]%lookup_insert_Some; [done|by apply Hid].
Qed.

Lemma create_floor_spots_lot_wf (uuid : nat -> string)
    (counts : SpotType.t -> option Z) (floor : string) (st : ParkingService) :
  lot_wf st -> lot_wf (create_floor_spots uuid counts floor st).
Proof.
  intros Hwf. rewrite create_floor_spots_eq.
  by repeat apply create_spots_lot_wf.
Qed.

Lemma create_levels_lot_wf (uuid : nat -> string) (n : nat) (lvl : Z)
    (lot : string) (counts : SpotType.t -> option Z) (st : ParkingService) :
  lot_wf st -> lot_wf (create_levels uuid n lvl lot counts st).
Proof.
  revert lvl st. induction n as [|n IH]; intros lvl st Hwf; [done|].
  rewrite create_levels_S. by apply IH, create_floor_spots_lot_wf.
Qed.

Lemma fresh_lot_lot_wf (uuid : nat -> string) (levels spotsPerLevel : Z)
    (counts : SpotType.t -> option Z) :
  lot_wf (fresh_lot uuid levels spotsPerLevel counts).
Proof.
  unfold fresh_lot, createParkingLot. cbn.
  apply create_levels_lot_wf, empty_service_lot_wf.
Qed.

Lemma run_lot_wf (uuid : nat -> string) (calls : list call)
    (st : ParkingService) :
  lot_wf st -> lot_wf (run uuid calls st).
Proof.
  unfold lot_wf. by destruct (run_catalog uuid calls st) as [-> ->].
Qed.

(** ** The scans, in a well-formed service *)

Lemma compatibleb_true (spots : ParkingSpotRepository) (vt : VehicleType.t)
    (k : string) :
  compatibleb spots vt k = true <-> compatible spots vt k.
Proof.
  unfold compatibleb, compatible.
  destruct (ParkingSpotRepository.findById spots k) as [sp|].
  - split; [intros Hfit; exists sp; by split|].
    by intros (sp' & [= <-] & Hfit).
  - split; [done|]. by intros (sp' & Hsp & _).
Qed.

Lemma getAvailableSpots_scan_wf (keys : list string) (vt : VehicleType.t)
    (res : list string) (st : ParkingService) :
  repo_wf (bookingRepo_ st) ->
  (forall k, k ∈ keys -> is_Some (spots_ (spotRepo_ st) !! k)) ->
  getAvailableSpots_scan keys vt res st =
  (Some (res ++ List.filter (compatibleb (spotRepo_ st) vt) keys), st).
Proof.
  intros Hwf. revert res. induction keys as [|spot rest IH]; intros res Hknown.
  - cbn. by rewrite app_nil_r.
  - cbn [getAvailableSpots_scan List.filter].
    rewrite (isOccupied_wf _ spot Hwf), set_bookingRepo_same.
    destruct (Hknown spot) as [sp Hsp]; [apply elem_of_cons; by left|].
    assert (Hc : compatibleb (spotRepo_ st) vt spot = fits vt (type sp))
      by (unfold compatibleb, ParkingSpotRepository.findById; by rewrite Hsp).
    unfold ParkingSpotRepository.findById. rewrite Hsp, Hc.
    rewrite IH by (intros k Hk; apply Hknown, elem_of_cons; by right).
    destruct (fits vt (type sp)); [by rewrite <- app_assoc | done].
Qed.

Lemma parkVehicle_scan_filter (uuid : nat -> string) (keys : list string)
    (v : string) (vt : VehicleType.t) (now : time_point) (st : ParkingService) :
  repo_wf (bookingRepo_ st) ->
  parkVehicle_scan uuid keys v vt now st =
  match List.filter (compatibleb (spotRepo_ st) vt) keys with
  | [] => (None, st)
  | spot :: _ =>
      (Some (uuid (uuids_drawn st)),
       mkParkingService (lotRepo_ st) (floorRepo_ st) (spotRepo_ st)
         (BookingRepository.save
            (mkBooking (uuid (uuids_drawn st)) spot v vt now None)
            (bookingRepo_ st))
         (mutexes_ st) (S (uuids_drawn st)))
  end.
Proof.
  intros Hwf. induction keys as [|spot rest IH]; [done|].
  cbn [parkVehicle_scan List.filter].
  rewrite (isOccupied_wf _ spot Hwf), set_bookingRepo_same.
  unfold compatibleb at 1.
  destruct (ParkingSpotRepository.findById (spotRepo_ st) spot) as [sp|];
    [|exact IH].
  destruct (fits vt (type sp)); [done | exact IH].
Qed.

(** ** What a run keeps *)

Lemma fresh_id_unused (uuid : nat -> string) (st : ParkingService) :
  collision_free uuid -> ids_drawn uuid st ->
  bookings_ (bookingRepo_ st) !! uuid (uuids_drawn st) = None.
Proof.
  intros Hfree Hids.
  destruct (bookings_ (bookingRepo_ st) !! uuid (uuids_drawn st)) eqn:Hold;
    [|done].
  destruct (Hids (uuid (uuids_drawn st))) as (k & Hk & Heq); [by eexists|].
  apply Hfree in Heq. lia.
Qed.

Lemma step_bookings_wf (uuid : nat -> string) (st : ParkingService) (c : call) :
  repo_wf (bookingRepo_ st) -> bookings_wf st -> bookings_wf (step uuid st c).
Proof.
  intros Hwf Hb. destruct c as [v vt now|v now]; cbn.
  - unfold parkVehicle. rewrite parkVehicle_scan_filter by done.
    destruct (List.filter (compatibleb (spotRepo_ st) vt) (mutexes_ st))
      as [|spot rest] eqn:Hfilter; [done|].
    intros i b Hi. cbn in Hi.
    apply lookup_insert_Some in Hi as [[_ <-]|[_ Hi]]; [|exact (Hb i b Hi)].
    split; [done|]. cbn. apply compatibleb_true.
    assert (Hin : In spot (List.filter (compatibleb (spotRepo_ st) vt)
                                       (mutexes_ st)))
      by (rewrite Hfilter; by left).
    by apply filter_In in Hin as [_ Hin].
  - destruct (vehicleIndex_ (bookingRepo_ st) !! v) as [k|] eqn:Hv.
    + destruct (leaveVehicle_present v k now st Hwf Hv)
        as (b & _ & _ & _ & _ & ->).
      intros i x Hi. cbn in Hi. apply lookup_delete_Some in Hi as [_ Hi].
      exact (Hb i x Hi).
    + by rewrite leaveVehicle_absent.
Qed.

Lemma run_bookings_wf (uuid : nat -> string) (calls : list call)
    (st : ParkingService) :
  collision_free uuid -> service_wf uuid st -> bookings_wf st ->
  bookings_wf (run uuid calls st).
Proof.
  intros Hfree. unfold run. revert st.
  induction calls as [|c calls IH]; intros st Hwf Hb; [done|].
  cbn. apply IH; [by apply step_service_wf|].
  apply step_bookings_wf; [by destruct Hwf | done].
Qed.

Lemma fresh_lot_bookings_wf (uuid : nat -> string) (levels spotsPerLevel : Z)
    (counts : SpotType.t -> option Z) :
  bookings_wf (fresh_lot uuid levels spotsPerLevel counts).
Proof.
  intros i b Hi. rewrite fresh_lot_bookingRepo in Hi. cbn in Hi.
  by rewrite lookup_empty in Hi.
Qed.

Lemma reachable_wf (uuid : nat -> string) (levels spotsPerLevel : Z)
    (counts : SpotType.t -> option Z) (calls : list call) :
  collision_free uuid ->
  let st := run uuid calls (fresh_lot uuid levels spotsPerLevel counts) in
  service_wf uuid st /\ lot_wf st /\ bookings_wf st.
Proof.
  intros Hfree st. split; [|split].
  - by apply run_service_wf, fresh_lot_wf.
  - apply run_lot_wf, fresh_lot_lot_wf.
  - apply run_bookings_wf; [done|by apply fresh_lot_wf|].
    apply fresh_lot_bookings_wf.
Qed.

(** ** Catalog and lock table *)

(** X1.  In every service reached from createParkingLot by parkVehicle and
    leaveVehicle calls, the lock table holds exactly the ids under which a
    spot is stored, in ascending order, every spot is stored under its own
    id, and the calls have changed neither the spots nor the lock table. *)
Theorem lock_table_is_spot_catalog (uuid : nat -> string)
    (levels spotsPerLevel : Z) (counts : SpotType.t -> option Z)
    (calls : list call) :
  let lot := fresh_lot uuid levels spotsPerLevel counts in
  let st := run uuid calls lot in
  (forall k : string,
     k ∈ mutexes_ st <->
     is_Some (ParkingSpotRepository.findById (spotRepo_ st) k)) /\
  (forall (k : string) (sp : ParkingSpot),
     ParkingSpotRepository.findById (spotRepo_ st) k = Some sp ->
     ParkingSpot_id sp = k) /\
  Sorted key_lt (mutexes_ st) /\
  spotRepo_ st = spotRepo_ lot /\ mutexes_ st = mutexes_ lot.
Proof.
  intros lot st.
  destruct (run_lot_wf uuid calls lot
              (fresh_lot_lot_wf uuid levels spotsPerLevel counts))
    as [Hkeys Hid].
  split; [exact Hkeys|]. split; [exact Hid|].
  split; [apply lock_table_ascending|]. apply run_catalog.
Qed.

(** ** Availability and allocation *)

(** X2.  In a service reached from createParkingLot, with a generator that
    never repeats, getAvailableSpots does not throw and changes nothing;
    it returns, in ascending id order, exactly the spots of the lock table
    whose type fits the vehicle type. *)
Theorem getAvailableSpots_lists_fitting_spots (uuid : nat -> string)
    (levels spotsPerLevel : Z) (counts : SpotType.t -> option Z)
    (calls : list call) (vt : VehicleType.t) :
  collision_free uuid ->
  let st := run uuid calls (fresh_lot uuid levels spotsPerLevel counts) in
  getAvailableSpots vt st =
  (Some (List.filter (compatibleb (spotRepo_ st) vt) (mutexes_ st)), st).
Proof.
  intros Hfree st.
  destruct (reachable_wf uuid levels spotsPerLevel counts calls Hfree)
    as ([Hwf _] & [Hkeys _] & _).
  fold st in Hwf, Hkeys. unfold getAvailableSpots.
  rewrite getAvailableSpots_scan_wf; [done|done|].
  intros k Hk. by apply Hkeys.
Qed.

Lemma getAvailableSpots_lists_fitting_spots_witness :
  collision_free tally /\
  getAvailableSpots VehicleType.Car (run tally one_car small_lot) =
  (Some [tally 2], run tally one_car small_lot).
Proof.
  split; [exact tally_collision_free|].
  exact (getAvailableSpots_lists_fitting_spots tally 1 1 one_compact one_car
           VehicleType.Car tally_collision_free).
Defined.

(** X3.  In such a service parkVehicle succeeds exactly when
    getAvailableSpots lists a spot for the vehicle type, and then books
    the first spot listed: it draws a new booking id, stores under it a
    booking without end for that spot and points the vehicle index of the
    vehicle at it.  When nothing is listed it returns empty and changes
    nothing. *)
Theorem parkVehicle_books_first_listed (uuid : nat -> string)
    (levels spotsPerLevel : Z) (counts : SpotType.t -> option Z)
    (calls : list call) (v : string) (vt : VehicleType.t) (now : time_point) :
  collision_free uuid ->
  let st := run uuid calls (fresh_lot uuid levels spotsPerLevel counts) in
  let i := uuid (uuids_drawn st) in
  match fst (getAvailableSpots vt st) with
  | None => False
  | Some [] => parkVehicle uuid v vt now st = (None, st)
  | Some (spot :: _) =>
      bookings_ (bookingRepo_ st) !! i = None /\
      exists st',
        parkVehicle uuid v vt now st = (Some i, st') /\
        bookings_ (bookingRepo_ st')
          = <[i := mkBooking i spot v vt now None]>
              (bookings_ (bookingRepo_ st)) /\
        vehicleIndex_ (bookingRepo_ st')
          = <[v := i]> (vehicleIndex_ (bookingRepo_ st))
  end.
Proof.
  intros Hfree st i.
  destruct (reachable_wf uuid levels spotsPerLevel counts calls Hfree)
    as ([Hwf Hids] & [Hkeys _] & _).
  fold st in Hwf, Hids, Hkeys. unfold getAvailableSpots, parkVehicle.
  rewrite getAvailableSpots_scan_wf; [|done|intros k Hk; by apply Hkeys].
  rewrite parkVehicle_scan_filter by done. cbn.
  destruct (List.filter (compatibleb (spotRepo_ st) vt) (mutexes_ st))
    as [|spot rest]; [done|].
  split; [by apply fresh_id_unused|]. eexists. by split.
Qed.

Lemma parkVehicle_books_first_listed_witness :
  collision_free tally /\
  bookings_ (bookingRepo_ (run tally one_car small_lot)) !! tally 4 = None /\
  exists st',
    parkVehicle tally "KA02" VehicleType.Car 101 (run tally one_car small_lot)
      = (Some (tally 4), st') /\
    bookings_ (bookingRepo_ st')
      = <[tally 4 := mkBooking (tally 4) (tally 2) "KA02" VehicleType.Car 101
                               None]>
          (bookings_ (bookingRepo_ (run tally one_car small_lot))) /\
    vehicleIndex_ (bookingRepo_ st')
      = <["KA02" := tally 4]>
          (vehicleIndex_ (bookingRepo_ (run tally one_car small_lot))).
Proof.
  split; [exact tally_collision_free|].
  exact (parkVehicle_books_first_listed tally 1 1 one_compact one_car "KA02"
           VehicleType.Car 101 tally_collision_free).
Defined.

(** X4.  Park, look up, leave.  In such a service, when parkVehicle of a
    vehicle succeeds, findByVehicle of that vehicle returns the booking
    just made (the returned id, the vehicle, its type, the clock reading
    as start, no end), and leaveVehicle right after returns true and
    brings the bookings map back to what it was before the parkVehicle;
    the vehicle index is the earlier one without the vehicle. *)
Theorem park_then_leave_restores_bookings (uuid : nat -> string)
    (levels spotsPerLevel : Z) (counts : SpotType.t -> option Z)
    (calls : list call) (v : string) (vt : VehicleType.t)
    (now now' : time_point) (i : string) (st1 : ParkingService) :
  collision_free uuid ->
  let st := run uuid calls (fresh_lot uuid levels spotsPerLevel counts) in
  parkVehicle uuid v vt now st = (Some i, st1) ->
  (exists spot,
     BookingRepository.findByVehicle (bookingRepo_ st1) v
       = (Some (mkBooking i spot v vt now None), bookingRepo_ st1)) /\
  exists st2,
    leaveVehicle v now' st1 = (true, st2) /\
    bookings_ (bookingRepo_ st2) = bookings_ (bookingRepo_ st) /\
    vehicleIndex_ (bookingRepo_ st2)
      = delete v (vehicleIndex_ (bookingRepo_ st)).
Proof.
  intros Hfree st Hpark.
  destruct (reachable_wf uuid levels spotsPerLevel counts calls Hfree)
    as ([Hwf Hids] & _ & _).
  fold st in Hwf, Hids.
  pose proof (fresh_id_unused uuid st Hfree Hids) as Hnew.
  unfold parkVehicle in Hpark. rewrite parkVehicle_scan_filter in Hpark by done.
  destruct (List.filter (compatibleb (spotRepo_ st) vt) (mutexes_ st))
    as [|spot rest]; [discriminate|].
  injection Hpark as <- <-.
  set (b := mkBooking (uuid (uuids_drawn st)) spot v vt now None).
  set (st1 := mkParkingService _ _ _ _ _ _).
  assert (Hwf1 : repo_wf (bookingRepo_ st1))
    by (by apply save_repo_wf).
  assert (Hv : vehicleIndex_ (bookingRepo_ st1) !! v
               = Some (uuid (uuids_drawn st)))
    by apply lookup_insert_eq.
  destruct (leaveVehicle_present v _ now' st1 Hwf1 Hv)
    as (b' & Hb' & _ & _ & Hfind & Hleave).
  assert (b' = b) as ->.
  { cbn in Hb'. rewrite lookup_insert_eq in Hb'. by injection Hb'. }
  split; [by exists spot|].
  eexists. split; [exact Hleave|]. cbn.
  split; [by apply delete_insert_id | apply delete_insert_eq].
Qed.

Lemma park_then_leave_restores_bookings_witness :
  collision_free tally /\
  parkVehicle tally "KA02" VehicleType.Car 101 (run tally one_car small_lot)
    = (Some (tally 4),
       snd (parkVehicle tally "KA02" VehicleType.Car 101
              (run tally one_car small_lot))) /\
  exists st2,
    leaveVehicle "KA02" 160
      (snd (parkVehicle tally "KA02" VehicleType.Car 101
              (run tally one_car small_lot))) = (true, st2) /\
    bookings_ (bookingRepo_ st2)
      = bookings_ (bookingRepo_ (run tally one_car small_lot)) /\
    vehicleIndex_ (bookingRepo_ st2)
      = delete "KA02" (vehicleIndex_ (bookingRepo_ (run tally one_car small_lot))).
Proof.
  assert (Hpark :
    parkVehicle tally "KA02" VehicleType.Car 101 (run tally one_car small_lot)
    = (Some (tally 4),
       snd (parkVehicle tally "KA02" VehicleType.Car 101
              (run tally one_car small_lot)))) by reflexivity.
  split; [exact tally_collision_free|]. split; [exact Hpark|].
  exact (proj2 (park_then_leave_restores_bookings tally 1 1 one_compact one_car
                  "KA02" VehicleType.Car 101 160 _ _ tally_collision_free
                  Hpark)).
Defined.

(** X5.  In such a service every stored booking is stored under its own
    id, has no end, and is for a spot of the lock table whose type fits
    the type of the booked vehicle; and the vehicle index maps a vehicle
    to a stored booking of that vehicle. *)
Theorem stored_bookings_active_and_fitting (uuid : nat -> string)
    (levels spotsPerLevel : Z) (counts : SpotType.t -> option Z)
    (calls : list call) :
  collision_free uuid ->
  let st := run uuid calls (fresh_lot uuid levels spotsPerLevel counts) in
  (forall (i : string) (b : Booking),
     bookings_ (bookingRepo_ st) !! i = Some b ->
     Booking_id b = i /\ end_ b = None /\ spotId b ∈ mutexes_ st /\
     exists sp,
       ParkingSpotRepository.findById (spotRepo_ st) (spotId b) = Some sp /\
       fits (vehicleType b) (type sp) = true) /\
  (forall v i : string,
     vehicleIndex_ (bookingRepo_ st) !! v = Some i ->
     exists b : Booking,
       bookings_ (bookingRepo_ st) !! i = Some b /\ vehicleId b = v).
Proof.
  intros Hfree st.
  destruct (reachable_wf uuid levels spotsPerLevel counts calls Hfree)
    as ([[Hid Hidx] _] & [Hkeys _] & Hb).
  fold st in Hid, Hidx, Hkeys, Hb. split; [|exact Hidx].
  intros i b Hi. destruct (Hb i b Hi) as [Hend (sp & Hsp & Hfit)].
  split; [by apply Hid|]. split; [done|]. split.
  - apply Hkeys. by exists sp.
  - by exists sp.
Qed.

Lemma stored_bookings_active_and_fitting_witness :
  collision_free tally /\
  Booking_id first_car = tally 3 /\ end_ first_car = None /\
  spotId first_car ∈ mutexes_ (run tally one_car small_lot) /\
  exists sp,
    ParkingSpotRepository.findById (spotRepo_ (run tally one_car small_lot))
                                   (spotId first_car) = Some sp /\
    fits (vehicleType first_car) (type sp) = true.
Proof.
  split; [exact tally_collision_free|].
  apply (proj1 (stored_bookings_active_and_fitting tally 1 1 one_compact
                  one_car tally_collision_free)).
  vm_compute. reflexivity.
Defined.

(** ** Lookups by parent *)

Lemma in_key_order_elem {A : Type} (m : gmap string A) (k : string) (x : A) :
  (k, x) ∈ in_key_order m <-> m !! k = Some x.
Proof.
  unfold in_key_order. rewrite merge_sort_Permutation.
  apply elem_of_map_to_list.
Qed.

Lemma findByFloor_elem (r : ParkingSpotRepository) (fl : string)
    (sp : ParkingSpot) :
  sp ∈ ParkingSpotRepository.findByFloor r fl <->
  (exists k : string, spots_ r !! k = Some sp) /\ floorId sp = fl.
Proof.
  unfold ParkingSpotRepository.findByFloor. rewrite list_elem_of_fmap. split.
  - intros ([k x] & -> & [Hfl Hin]%list_elem_of_filter).
    apply in_key_order_elem in Hin. split; [by exists k | done].
  - intros [[k Hk] Hfl]. exists (k, sp). split; [done|].
    apply list_elem_of_filter. split; [done | by apply in_key_order_elem].
Qed.

Lemma findByLot_elem (r : ParkingFloorRepository) (lot : string)
    (f : ParkingFloor) :
  f ∈ ParkingFloorRepository.findByLot r lot <->
  (exists k : string, floors_ r !! k = Some f) /\ lotId f = lot.
Proof.
  unfold ParkingFloorRepository.findByLot. rewrite list_elem_of_fmap. split.
  - intros ([k x] & -> & [Hfl Hin]%list_elem_of_filter).
    apply in_key_order_elem in Hin. split; [by exists k | done].
  - intros [[k Hk] Hfl]. exists (k, f). split; [done|].
    apply list_elem_of_filter. split; [done | by apply in_key_order_elem].
Qed.

Lemma findByFloor_none (r : ParkingSpotRepository) (fl : string) :
  (forall k sp, spots_ r !! k = Some sp -> floorId sp <> fl) ->
  ParkingSpotRepository.findByFloor r fl = [].
Proof.
  intros Hno.
  destruct (ParkingSpotRepository.findByFloor r fl) as [|sp rest] eqn:Hl;
    [done|].
  assert (Hin : sp ∈ ParkingSpotRepository.findByFloor r fl)
    by (rewrite Hl; apply elem_of_cons; by left).
  apply findByFloor_elem in Hin as [[k Hk] Hfl]. by destruct (Hno k sp Hk).
Qed.

Lemma findByLot_all (r : ParkingFloorRepository) (lot : string) :
  (forall k f, floors_ r !! k = Some f -> lotId f = lot) ->
  length (ParkingFloorRepository.findByLot r lot) = size (floors_ r).
Proof.
  intros Hall. unfold ParkingFloorRepository.findByLot.
  rewrite length_fmap.
  assert (Hkeep : forall l : list (string * ParkingFloor),
            (forall p, p ∈ l -> lotId (snd p) = lot) ->
            filter (fun p => lotId (snd p) = lot) l = l).
  { induction l as [|p l IH]; intros Hl; [done|].
    rewrite filter_cons_True by (apply Hl, elem_of_cons; by left).
    f_equal. apply IH. intros q Hq. apply Hl, elem_of_cons. by right. }
  rewrite Hkeep.
  - unfold in_key_order. rewrite merge_sort_Permutation.
    apply length_map_to_list.
  - intros [k f] Hin. apply in_key_order_elem in Hin. by eapply Hall.
Qed.

(** ** Counting what [createParkingLot] creates *)

Lemma in_key_order_insert {A : Type} (m : gmap string A) (k : string) (x : A) :
  m !! k = None -> in_key_order (<[k:=x]> m) ≡ₚ (k, x) :: in_key_order m.
Proof.
  intros Hk. unfold in_key_order. rewrite !merge_sort_Permutation.
  by apply map_to_list_insert.
Qed.

Lemma findByFloor_save_fresh (r : ParkingSpotRepository) (sp : ParkingSpot)
    (fl : string) :
  spots_ r !! ParkingSpot_id sp = None ->
  length (ParkingSpotRepository.findByFloor (ParkingSpotRepository.save sp r) fl)
  = ((if decide (floorId sp = fl) then 1 else 0)
     + length (ParkingSpotRepository.findByFloor r fl))%nat.
Proof.
  intros Hnew. unfold ParkingSpotRepository.findByFloor,
    ParkingSpotRepository.save. cbn. rewrite !length_fmap.
  rewrite (Permutation_length
             (filter_Permutation _ _ _ (in_key_order_insert _ _ sp Hnew))).
  rewrite filter_cons. cbn. by destruct (decide (floorId sp = fl)).
Qed.

Lemma create_spots_drawn (uuid : nat -> string) (n : nat) (floor : string)
    (ty : SpotType.t) (st : ParkingService) :
  uuids_drawn (create_spots uuid n floor ty st) = (uuids_drawn st + n)%nat /\
  floorRepo_ (create_spots uuid n floor ty st) = floorRepo_ st /\
  lotRepo_ (create_spots uuid n floor ty st) = lotRepo_ st.
Proof.
  revert st. induction n as [|n IH]; intros st; [by rewrite Nat.add_0_r|].
  rewrite create_spots_S. destruct (IH (mkParkingService
    (lotRepo_ st) (floorRepo_ st)
    (ParkingSpotRepository.save
       (mkParkingSpot (uuid (uuids_drawn st)) floor ty) (spotRepo_ st))
    (bookingRepo_ st) (mutexes_touch (uuid (uuids_drawn st)) (mutexes_ st))
    (S (uuids_drawn st)))) as (H1 & H2 & H3).
  rewrite H1, H2, H3. cbn. split; [lia|done].
Qed.

Section Creation.

Variable uuid : nat -> string.
Hypothesis uuid_collision_free : collision_free uuid.

Lemma fresh_spot_id (st : ParkingService) :
  catalog_drawn uuid st ->
  spots_ (spotRepo_ st) !! uuid (uuids_drawn st) = None.
Proof.
  intros [Hspots _].
  destruct (spots_ (spotRepo_ st) !! uuid (uuids_drawn st)) eqn:Hold; [|done].
  destruct (Hspots (uuid (uuids_drawn st))) as (n & Hn & Heq); [by eexists|].
  apply uuid_collision_free in Heq. lia.
Qed.

Lemma fresh_floor_id (st : ParkingService) :
  catalog_drawn uuid st ->
  floors_ (floorRepo_ st) !! uuid (uuids_drawn st) = None.
Proof.
  intros [_ Hfloors].
  destruct (floors_ (floorRepo_ st) !! uuid (uuids_drawn st)) eqn:Hold; [|done].
  destruct (Hfloors (uuid (uuids_drawn st))) as (n & Hn & Heq); [by eexists|].
  apply uuid_collision_free in Heq. lia.
Qed.

(** What [n] turns of the innermost loop add. *)
Lemma create_spots_effect (n : nat) (floor : string) (ty : SpotType.t)
    (st : ParkingService) :
  catalog_drawn uuid st -> lot_wf st ->
  let st' := create_spots uuid n floor ty st in
  catalog_drawn uuid st' /\
  size (spots_ (spotRepo_ st')) = (size (spots_ (spotRepo_ st)) + n)%nat /\
  length (mutexes_ st') = (length (mutexes_ st) + n)%nat /\
  (forall fl : string,
     length (ParkingSpotRepository.findByFloor (spotRepo_ st') fl)
     = (length (ParkingSpotRepository.findByFloor (spotRepo_ st) fl)
        + (if decide (floor = fl) then n else 0))%nat) /\
  (forall (k : string) (sp : ParkingSpot),
     spots_ (spotRepo_ st') !! k = Some sp ->
     spots_ (spotRepo_ st) !! k = Some sp \/ floorId sp = floor).
Proof.
  revert st. induction n as [|n IH]; intros st Hdrawn Hwf st'.
  - subst st'. cbn. split; [done|]. split; [lia|]. split; [lia|].
    split; [|by left]. intros fl. destruct (decide (floor = fl)); lia.
  - subst st'. rewrite create_spots_S.
    set (st1 := mkParkingService _ _ _ _ _ _).
    pose proof (fresh_spot_id st Hdrawn) as Hnew.
    assert (Hdrawn1 : catalog_drawn uuid st1).
    { destruct Hdrawn as [Hspots Hfloors]. split; cbn.
      - intros k [<-|[_ Hk]]%lookup_insert_is_Some.
        + exists (uuids_drawn st). split; [lia|done].
        + destruct (Hspots k Hk) as (m & Hm & ->). exists m. split; [lia|done].
      - intros k Hk. destruct (Hfloors k Hk) as (m & Hm & ->).
        exists m. split; [lia|done]. }
    assert (Hwf1 : lot_wf st1)
      by exact (create_spots_lot_wf uuid 1 floor ty st Hwf).
    destruct (IH st1 Hdrawn1 Hwf1) as (Hd & Hsize & Hlen & Hcount & Hold).
    split; [exact Hd|]. split; [|split; [|split]].
    + rewrite Hsize. cbn. rewrite map_size_insert_None by done. lia.
    + rewrite Hlen. cbn. rewrite mutexes_touch_length; [lia|].
      intros Hin. apply (proj1 Hwf) in Hin as [x Hx]. congruence.
    + intros fl. rewrite Hcount. cbn [spotRepo_ st1].
      rewrite findByFloor_save_fresh by done. cbn.
      destruct (decide (floor = fl)); lia.
    + intros k sp Hk. destruct (Hold k sp Hk) as [Hk1|Hfl]; [|by right].
      cbn in Hk1. apply lookup_insert_Some in Hk1 as [[_ <-]|[_ Hk1]];
        [by right|by left].
Qed.

Lemma create_floor_spots_drawn (counts : SpotType.t -> option Z)
    (floor : string) (st : ParkingService) :
  uuids_drawn (create_floor_spots uuid counts floor st)
    = (uuids_drawn st + spots_per_level counts)%nat /\
  floorRepo_ (create_floor_spots uuid counts floor st) = floorRepo_ st /\
  lotRepo_ (create_floor_spots uuid counts floor st) = lotRepo_ st.
Proof.
  rewrite create_floor_spots_eq. unfold spots_per_level.
  repeat match goal with
         | |- context [create_spots uuid ?n ?f ?ty ?s] =>
             let H := fresh in
             destruct (create_spots_drawn uuid n f ty s) as (H & -> & ->);
             rewrite H; clear H
         end.
  split; [lia|done].
Qed.

Lemma create_floor_spots_effect (counts : SpotType.t -> option Z)
    (floor : string) (st : ParkingService) :
  catalog_drawn uuid st -> lot_wf st ->
  let st' := create_floor_spots uuid counts floor st in
  let n := spots_per_level counts in
  catalog_drawn uuid st' /\
  size (spots_ (spotRepo_ st')) = (size (spots_ (spotRepo_ st)) + n)%nat /\
  length (mutexes_ st') = (length (mutexes_ st) + n)%nat /\
  (forall fl : string,
     length (ParkingSpotRepository.findByFloor (spotRepo_ st') fl)
     = (length (ParkingSpotRepository.findByFloor (spotRepo_ st) fl)
        + (if decide (floor = fl) then n else 0))%nat) /\
  (forall (k : string) (sp : ParkingSpot),
     spots_ (spotRepo_ st') !! k = Some sp ->
     spots_ (spotRepo_ st) !! k = Some sp \/ floorId sp = floor).
Proof.
  intros Hd Hwf st' n. subst st' n. rewrite create_floor_spots_eq.
  unfold spots_per_level.
  set (n1 := Z.to_nat (default 0 (counts SpotType.Motorcycle))).
  set (n2 := Z.to_nat (default 0 (counts SpotType.Compact))).
  set (n3 := Z.to_nat (default 0 (counts SpotType.Large))).
  destruct (create_spots_effect n1 floor SpotType.Motorcycle st Hd Hwf)
    as (Hd1 & Hs1 & Hl1 & Hc1 & Ho1).
  pose proof (create_spots_lot_wf uuid n1 floor SpotType.Motorcycle st Hwf)
    as Hwf1.
  destruct (create_spots_effect n2 floor SpotType.Compact _ Hd1 Hwf1)
    as (Hd2 & Hs2 & Hl2 & Hc2 & Ho2).
  pose proof (create_spots_lot_wf uuid n2 floor SpotType.Compact _ Hwf1)
    as Hwf2.
  destruct (create_spots_effect n3 floor SpotType.Large _ Hd2 Hwf2)
    as (Hd3 & Hs3 & Hl3 & Hc3 & Ho3).
  split; [exact Hd3|]. split; [lia|]. split; [lia|]. split.
  - intros fl. rewrite Hc3, Hc2, Hc1. destruct (decide (floor = fl)); lia.
  - intros k sp Hk. destruct (Ho3 k sp Hk) as [Hk2|?]; [|by right].
    destruct (Ho2 k sp Hk2) as [Hk1|?]; [|by right]. by apply Ho1.
Qed.

(** One turn of the loop over the levels. *)
Lemma create_level_effect (lot : string) (counts : SpotType.t -> option Z)
    (j : nat) (st : ParkingService) :
  levels_done uuid lot (spots_per_level counts) j st ->
  levels_done uuid lot (spots_per_level counts) (S j)
    (create_levels uuid 1 (Z.of_nat j + 1) lot counts st).
Proof.
  intros (Hd & Hwf & (Hfl & Hlv & Hon) & (Hsf & Hss & Hsm)).
  rewrite create_levels_S. cbn [create_levels].
  set (fl := uuid (uuids_drawn st)).
  set (st_a := mkParkingService _ _ _ _ _ _).
  assert (Hnew : floors_ (floorRepo_ st) !! fl = None)
    by exact (fresh_floor_id st Hd).
  assert (Hda : catalog_drawn uuid st_a).
  { destruct Hd as [Hspots Hfloors]. split; cbn.
    - intros k Hk. destruct (Hspots k Hk) as (m & Hm & ->).
      exists m. split; [lia|done].
    - intros k [<-|[_ Hk]]%lookup_insert_is_Some.
      + exists (uuids_drawn st). split; [lia|done].
      + destruct (Hfloors k Hk) as (m & Hm & ->). exists m. split; [lia|done]. }
  assert (Hwfa : lot_wf st_a) by exact Hwf.
  destruct (create_floor_spots_effect counts fl st_a Hda Hwfa)
    as (Hdb & Hsb & Hlb & Hcb & Hob).
  destruct (create_floor_spots_drawn counts fl st_a) as (_ & Hfb & _).
  set (st_b := create_floor_spots uuid counts fl st_a) in *.
  assert (Hfloors_b : floors_ (floorRepo_ st_b)
            = <[fl := mkParkingFloor fl lot (Z.of_nat j + 1)]>
                (floors_ (floorRepo_ st))) by (by rewrite Hfb).
  assert (Hempty : ParkingSpotRepository.findByFloor (spotRepo_ st) fl = []).
  { apply findByFloor_none. intros k sp Hk Heq.
    destruct (Hon k sp Hk) as [f Hf]. rewrite Heq in Hf. congruence. }
  split; [exact Hdb|]. split; [by apply create_floor_spots_lot_wf|].
  split; [split; [|split]|].
  - intros k f Hk. rewrite Hfloors_b in Hk.
    apply lookup_insert_Some in Hk as [[<- <-]|[Hne Hk]].
    + cbn. split; [done|]. split; [done|]. split; [lia|].
      rewrite Hcb. cbn [spotRepo_ st_a]. rewrite Hempty.
      by rewrite decide_True.
    + destruct (Hfl k f Hk) as (Hid & Hlot & Hlevel & Hcount).
      split; [done|]. split; [done|]. split; [lia|].
      rewrite Hcb. cbn [spotRepo_ st_a]. rewrite Hcount.
      rewrite decide_False by done. lia.
  - intros l Hl. rewrite Hfloors_b.
    destruct (decide (l = Z.of_nat j + 1)) as [->|Hne].
    + exists fl. eexists. split; [apply lookup_insert_eq|done].
    + destruct (Hlv l) as (k & f & Hk & Hlevel); [lia|].
      exists k, f. split; [|done]. rewrite lookup_insert_ne; [done|].
      intros <-. congruence.
  - intros k sp Hk. rewrite Hfloors_b.
    destruct (Hob k sp Hk) as [Hk1| ->].
    + destruct (Hon k sp Hk1) as [f Hf].
      apply lookup_insert_is_Some.
      destruct (decide (fl = floorId sp)); [by left|right; by split].
    + rewrite lookup_insert_eq. by eexists.
  - split; [|split].
    + rewrite Hfloors_b, map_size_insert_None by done. by rewrite Hsf.
    + rewrite Hsb. cbn [spotRepo_ st_a]. lia.
    + rewrite Hlb. cbn [mutexes_ st_a]. lia.
Qed.

Lemma create_levels_split (n : nat) (lvl : Z) (lot : string)
    (counts : SpotType.t -> option Z) (st : ParkingService) :
  create_levels uuid (S n) lvl lot counts st =
  create_levels uuid n (lvl + 1) lot counts
    (create_levels uuid 1 lvl lot counts st).
Proof. reflexivity. Qed.

Lemma create_levels_effect (n : nat) (lot : string)
    (counts : SpotType.t -> option Z) (j : nat) (st : ParkingService) :
  levels_done uuid lot (spots_per_level counts) j st ->
  levels_done uuid lot (spots_per_level counts) (j + n)
    (create_levels uuid n (Z.of_nat j + 1) lot counts st).
Proof.
  revert j st. induction n as [|n IH]; intros j st Hinv.
  - by rewrite Nat.add_0_r.
  - rewrite create_levels_split.
    replace (Z.of_nat j + 1 + 1) with (Z.of_nat (S j) + 1) by lia.
    replace (j + S n)%nat with (S j + n)%nat by lia.
    by apply IH, create_level_effect.
Qed.

End Creation.

Lemma create_levels_drawn (uuid : nat -> string) (n : nat) (lvl : Z)
    (lot : string) (counts : SpotType.t -> option Z) (st : ParkingService) :
  uuids_drawn (create_levels uuid n lvl lot counts st)
    = (uuids_drawn st + n * (1 + spots_per_level counts))%nat /\
  lotRepo_ (create_levels uuid n lvl lot counts st) = lotRepo_ st.
Proof.
  revert lvl st. induction n as [|n IH]; intros lvl st.
  - cbn. split; [lia|done].
  - rewrite create_levels_S.
    destruct (IH (lvl + 1)
                (create_floor_spots uuid counts (uuid (uuids_drawn st))
                   (mkParkingService (lotRepo_ st)
                      (ParkingFloorRepository.save
                         (mkParkingFloor (uuid (uuids_drawn st)) lot lvl)
                         (floorRepo_ st))
                      (spotRepo_ st) (bookingRepo_ st) (mutexes_ st)
                      (S (uuids_drawn st))))) as [H1 H2].
    rewrite H1, H2.
    destruct (create_floor_spots_drawn uuid counts (uuid (uuids_drawn st))
                (mkParkingService (lotRepo_ st)
                   (ParkingFloorRepository.save
                      (mkParkingFloor (uuid (uuids_drawn st)) lot lvl)
                      (floorRepo_ st))
                   (spotRepo_ st) (bookingRepo_ st) (mutexes_ st)
                   (S (uuids_drawn st)))) as (H3 & _ & H4).
    rewrite H3, H4. cbn. split; [lia|done].
Qed.

Lemma fresh_lot_levels_done (uuid : nat -> string) (levels spotsPerLevel : Z)
    (counts : SpotType.t -> option Z) :
  collision_free uuid ->
  levels_done uuid (uuid 0%nat) (spots_per_level counts) (Z.to_nat levels)
    (fresh_lot uuid levels spotsPerLevel counts).
Proof.
  intros Hfree. unfold fresh_lot, createParkingLot. cbn.
  apply (create_levels_effect uuid Hfree (Z.to_nat levels) (uuid 0%nat) counts
           0%nat).
  split; [|split; [|split]].
  - split; cbn; intros k [x Hk]; by rewrite lookup_empty in Hk.
  - exact empty_service_lot_wf.
  - split; [|split]; cbn.
    + intros k f Hk. by rewrite lookup_empty in Hk.
    + intros l Hl. lia.
    + intros k sp Hk. by rewrite lookup_empty in Hk.
  - split; [|split]; cbn; [apply map_size_empty | apply map_size_empty | done].
Qed.

(** X6.  With a generator that never repeats and a number of levels below
    2^31 - 1 (where the loop over the levels ends), createParkingLot on an
    empty service returns the first identifier drawn as lot id, stores the
    lot with its number of levels, and creates one floor per level and, on
    each, as many spots as the counts add up to (a count or a number of
    levels below zero counts as zero), with one lock per spot; it draws
    one identifier for each of them and stores no booking.  The argument
    spotsPerLevel plays no part. *)
Theorem createParkingLot_counts (uuid : nat -> string)
    (levels spotsPerLevel : Z) (counts : SpotType.t -> option Z) :
  collision_free uuid ->
  levels < 2 ^ 31 - 1 ->
  let lot := fst (createParkingLot uuid levels spotsPerLevel counts
                                   empty_service) in
  let st := snd (createParkingLot uuid levels spotsPerLevel counts
                                  empty_service) in
  let L := Z.to_nat levels in
  let N := spots_per_level counts in
  lot = uuid 0%nat /\
  lots_ (lotRepo_ st) = {[uuid 0%nat := mkParkingLot (uuid 0%nat) levels]} /\
  size (floors_ (floorRepo_ st)) = L /\
  size (spots_ (spotRepo_ st)) = (L * N)%nat /\
  length (mutexes_ st) = (L * N)%nat /\
  uuids_drawn st = (1 + L * (1 + N))%nat /\
  bookingRepo_ st = mkBookingRepository ∅ ∅.
Proof.
  intros Hfree _ lot st L N.
  destruct (fresh_lot_levels_done uuid levels spotsPerLevel counts Hfree)
    as (_ & _ & _ & (Hf & Hs & Hm)).
  split; [done|]. split; [|split; [exact Hf|split; [exact Hs|split; [exact Hm|]]]].
  - subst st. unfold createParkingLot. cbn.
    by rewrite (proj2 (create_levels_drawn uuid _ _ _ _ _)).
  - split; [|exact (fresh_lot_bookingRepo uuid levels spotsPerLevel counts)].
    subst st. unfold createParkingLot. cbn.
    by rewrite (proj1 (create_levels_drawn uuid _ _ _ _ _)).
Qed.

Lemma createParkingLot_counts_witness :
  collision_free tally /\
  3 < 2 ^ 31 - 1 /\
  lots_ (lotRepo_ (snd (createParkingLot tally 3 10 main_counts empty_service)))
    = {[tally 0 := mkParkingLot (tally 0) 3]} /\
  size (floors_ (floorRepo_
          (snd (createParkingLot tally 3 10 main_counts empty_service)))) = 3%nat /\
  size (spots_ (spotRepo_
          (snd (createParkingLot tally 3 10 main_counts empty_service)))) = 30%nat /\
  uuids_drawn (snd (createParkingLot tally 3 10 main_counts empty_service))
    = 34%nat.
Proof.
  assert (Hlevels : 3 < 2 ^ 31 - 1) by lia.
  destruct (createParkingLot_counts tally 3 10 main_counts tally_collision_free
              Hlevels)
    as (_ & Hlot & Hf & Hs & _ & Hd & _).
  split; [exact tally_collision_free|]. split; [exact Hlevels|].
  split; [exact Hlot|].
  split; [exact Hf|]. split; [exact Hs | exact Hd].
Defined.

(** X7.  With a generator that never repeats and a number of levels below
    2^31 - 1, after createParkingLot the
    lookup findByLot of the new lot returns one floor per level, stored
    under its own id and numbered within 1..levels, every level number
    being taken; findByFloor of each of these floors returns as many spots
    as the counts add up to, and every stored spot is on one of them. *)
Theorem fresh_lot_floors_and_spots (uuid : nat -> string)
    (levels spotsPerLevel : Z) (counts : SpotType.t -> option Z) :
  collision_free uuid ->
  levels < 2 ^ 31 - 1 ->
  let lot := fst (createParkingLot uuid levels spotsPerLevel counts
                                   empty_service) in
  let st := fresh_lot uuid levels spotsPerLevel counts in
  let floors := ParkingFloorRepository.findByLot (floorRepo_ st) lot in
  length floors = Z.to_nat levels /\
  (forall f : ParkingFloor,
     f ∈ floors ->
     floors_ (floorRepo_ st) !! ParkingFloor_id f = Some f /\
     1 <= level f <= levels /\
     length (ParkingSpotRepository.findByFloor (spotRepo_ st)
                                               (ParkingFloor_id f))
     = spots_per_level counts) /\
  (forall l : Z, 1 <= l <= levels -> exists f, f ∈ floors /\ level f = l) /\
  (forall (k : string) (sp : ParkingSpot),
     spots_ (spotRepo_ st) !! k = Some sp ->
     exists f, f ∈ floors /\ floorId sp = ParkingFloor_id f).
Proof.
  intros Hfree _ lot st floors.
  destruct (fresh_lot_levels_done uuid levels spotsPerLevel counts Hfree)
    as (_ & _ & (Hfl & Hlv & Hon) & (Hsf & _ & _)).
  fold st in Hfl, Hlv, Hon, Hsf.
  assert (Hlot : lot = uuid 0%nat) by done.
  split; [|split; [|split]].
  - subst floors. rewrite findByLot_all; [done|].
    intros k f Hk. rewrite Hlot. by destruct (Hfl k f Hk) as (_ & ? & _).
  - intros f [[k Hk] _]%findByLot_elem.
    destruct (Hfl k f Hk) as (Hid & _ & Hlevel & Hcount).
    rewrite Hid. split; [done|]. split; [lia|done].
  - intros l Hl. destruct (Hlv l) as (k & f & Hk & Hlevel); [lia|].
    exists f. split; [|done]. apply findByLot_elem. split; [by exists k|].
    rewrite Hlot. by destruct (Hfl k f Hk) as (_ & ? & _).
  - intros k sp Hk. destruct (Hon k sp Hk) as [f Hf].
    destruct (Hfl _ f Hf) as (Hid & Hl & _).
    exists f. split; [|done]. apply findByLot_elem. split; [by eexists|].
    by rewrite Hlot.
Qed.

Lemma fresh_lot_floors_and_spots_witness :
  collision_free tally /\
  3 < 2 ^ 31 - 1 /\
  length (ParkingFloorRepository.findByLot
            (floorRepo_ (fresh_lot tally 3 10 main_counts)) (tally 0)) = 3%nat /\
  forall f : ParkingFloor,
    f ∈ ParkingFloorRepository.findByLot
          (floorRepo_ (fresh_lot tally 3 10 main_counts)) (tally 0) ->
    length (ParkingSpotRepository.findByFloor
              (spotRepo_ (fresh_lot tally 3 10 main_counts))
              (ParkingFloor_id f)) = 10%nat.
Proof.
  assert (Hlevels : 3 < 2 ^ 31 - 1) by lia.
  destruct (fresh_lot_floors_and_spots tally 3 10 main_counts
              tally_collision_free Hlevels) as (Hlen & Hfloors & _).
  split; [exact tally_collision_free|]. split; [exact Hlevels|].
  split; [exact Hlen|].
  intros f Hf. exact (proj2 (proj2 (Hfloors f Hf))).
Defined.

(** ** The order of the lookups *)

Lemma leb_trans (a b c : string) :
  String.leb a b = true -> String.leb b c = true -> String.leb a c = true.
Proof.
  unfold String.leb. intros Hab Hbc.
  destruct (String.compare a b) eqn:H1; [|clear Hab|discriminate].
  - apply String.compare_eq_iff in H1 as ->. exact Hbc.
  - destruct (String.compare b c) eqn:H2; [|clear Hbc|discriminate].
    + apply String.compare_eq_iff in H2 as <-. by rewrite H1.
    + apply String_as_OT.cmp_lt in H1, H2.
      pose proof (String_as_OT.lt_trans _ _ _ H1 H2) as H3.
      apply String_as_OT.cmp_lt in H3. unfold String_as_OT.cmp in H3.
      by rewrite H3.
Qed.

#[local] Instance key_le_total {A : Type} : Total (@key_le A).
Proof. intros p q. apply String.leb_total. Qed.

#[local] Instance key_le_transitive {A : Type} : Transitive (@key_le A).
Proof. intros p q r. apply leb_trans. Qed.

Lemma in_key_order_sorted {A : Type} (m : gmap string A) :
  StronglySorted (fun p q => key_lt (fst p) (fst q)) (in_key_order m).
Proof.
  assert (Hsorted : StronglySorted key_le (in_key_order m))
    by (apply StronglySorted_merge_sort; apply _).
  assert (Hnodup : NoDup ((in_key_order m).*1)).
  { unfold in_key_order. rewrite merge_sort_Permutation.
    apply NoDup_fst_map_to_list. }
  induction Hsorted as [|p l Hl IH Hall]; [constructor|].
  cbn in Hnodup. apply NoDup_cons in Hnodup as [Hnotin Hnodup].
  constructor; [by apply IH|].
  apply Forall_forall. intros q Hq.
  rewrite Forall_forall in Hall. specialize (Hall q Hq).
  unfold key_le, String.leb in Hall. unfold key_lt.
  destruct (String.compare (fst p) (fst q)) eqn:Hcmp; [|done|done].
  apply String.compare_eq_iff in Hcmp. destruct Hnotin.
  rewrite Hcmp. by apply list_elem_of_fmap_2.
Qed.

Lemma sorted_filter_snd {A : Type} (P : string * A -> Prop)
    `{forall p, Decision (P p)} (ident : A -> string)
    (l : list (string * A)) :
  StronglySorted (fun p q => key_lt (fst p) (fst q)) l ->
  (forall p, p ∈ l -> ident (snd p) = fst p) ->
  StronglySorted (fun a b => key_lt (ident a) (ident b)) (snd <$> filter P l).
Proof.
  induction 1 as [|p l Hl IH Hall]; intros Hid; [constructor|].
  assert (Hid' : forall q, q ∈ l -> ident (snd q) = fst q)
    by (intros q Hq; apply Hid, elem_of_cons; by right).
  rewrite filter_cons. destruct (decide (P p)); [|by apply IH].
  cbn. constructor; [by apply IH|].
  apply Forall_forall. intros b ([k x] & -> & [_ Hq]%list_elem_of_filter)%list_elem_of_fmap.
  rewrite Forall_forall in Hall. specialize (Hall _ Hq).
  rewrite (Hid p) by (apply elem_of_cons; by left).
  by rewrite (Hid' _ Hq).
Qed.

(** X8.  The lookups by parent are exact and ordered: findByLot returns
    the stored floors whose lot id is the one asked for and no other, and
    findByFloor the stored spots of the floor asked for and no other;
    when the records are stored under their own ids, both results come in
    strictly ascending id order, hence without repetition. *)
Theorem lookups_by_parent_exact_and_ordered (fr : ParkingFloorRepository)
    (sr : ParkingSpotRepository) (lot floor : string) :
  (forall f : ParkingFloor,
     f ∈ ParkingFloorRepository.findByLot fr lot <->
     (exists k : string, floors_ fr !! k = Some f) /\ lotId f = lot) /\
  (forall sp : ParkingSpot,
     sp ∈ ParkingSpotRepository.findByFloor sr floor <->
     (exists k : string, spots_ sr !! k = Some sp) /\ floorId sp = floor) /\
  ((forall k f, floors_ fr !! k = Some f -> ParkingFloor_id f = k) ->
   StronglySorted (fun a b => key_lt (ParkingFloor_id a) (ParkingFloor_id b))
                  (ParkingFloorRepository.findByLot fr lot)) /\
  ((forall k sp, spots_ sr !! k = Some sp -> ParkingSpot_id sp = k) ->
   StronglySorted (fun a b => key_lt (ParkingSpot_id a) (ParkingSpot_id b))
                  (ParkingSpotRepository.findByFloor sr floor)).
Proof.
  split; [intros f; apply findByLot_elem|].
  split; [intros sp; apply findByFloor_elem|]. split.
  - intros Hid. apply sorted_filter_snd; [apply in_key_order_sorted|].
    intros [k f] Hin. apply in_key_order_elem in Hin. by apply Hid.
  - intros Hid. apply sorted_filter_snd; [apply in_key_order_sorted|].
    intros [k sp] Hin. apply in_key_order_elem in Hin. by apply Hid.
Qed.

Lemma lookups_by_parent_exact_and_ordered_witness :
  StronglySorted (fun a b => key_lt (ParkingSpot_id a) (ParkingSpot_id b))
    (ParkingSpotRepository.findByFloor
       (spotRepo_ (fresh_lot tally 1 10 main_counts)) (tally 1)).
Proof.
  apply (lookups_by_parent_exact_and_ordered
           (floorRepo_ (fresh_lot tally 1 10 main_counts))
           (spotRepo_ (fresh_lot tally 1 10 main_counts))
           (tally 0) (tally 1)).
  exact (proj2 (fresh_lot_lot_wf tally 1 10 main_counts)).
Defined.

(** ** The program *)

(** The spot created last is stored, under the last identifier drawn. *)
Lemma create_spots_last (uuid : nat -> string) (n : nat) (floor : string)
    (ty : SpotType.t) (st : ParkingService) :
  spots_ (spotRepo_ (create_spots uuid (S n) floor ty st))
    !! uuid (uuids_drawn st + n)%nat
  = Some (mkParkingSpot (uuid (uuids_drawn st + n)%nat) floor ty).
Proof.
  revert st. induction n as [|n IH]; intros st.
  - rewrite Nat.add_0_r. cbn. apply lookup_insert_eq.
  - rewrite create_spots_S. set (st1 := mkParkingService _ _ _ _ _ _).
    replace (uuids_drawn st + S n)%nat with (uuids_drawn st1 + n)%nat
      by (cbn; lia).
    apply IH.
Qed.

Lemma create_floor_spots_large (uuid : nat -> string)
    (counts : SpotType.t -> option Z) (floor : string) (st : ParkingService) :
  (0 < Z.to_nat (default 0%Z (counts SpotType.Large)))%nat ->
  exists k : string,
    spots_ (spotRepo_ (create_floor_spots uuid counts floor st)) !! k
    = Some (mkParkingSpot k floor SpotType.Large).
Proof.
  intros Hpos. rewrite create_floor_spots_eq.
  destruct (Z.to_nat (default 0 (counts SpotType.Large))) as [|n]; [lia|].
  eexists. apply create_spots_last.
Qed.

Lemma create_levels_large (uuid : nat -> string) (n : nat) (lvl : Z)
    (lot : string) (counts : SpotType.t -> option Z) (st : ParkingService) :
  (0 < Z.to_nat (default 0%Z (counts SpotType.Large)))%nat ->
  exists (k : string) (sp : ParkingSpot),
    spots_ (spotRepo_ (create_levels uuid (S n) lvl lot counts st)) !! k
    = Some sp /\ type sp = SpotType.Large.
Proof.
  intros Hpos. revert lvl st. induction n as [|n IH]; intros lvl st.
  - rewrite create_levels_S. cbn [create_levels].
    destruct (create_floor_spots_large uuid counts (uuid (uuids_drawn st))
                (mkParkingService (lotRepo_ st)
                   (ParkingFloorRepository.save
                      (mkParkingFloor (uuid (uuids_drawn st)) lot lvl)
                      (floorRepo_ st))
                   (spotRepo_ st) (bookingRepo_ st) (mutexes_ st)
                   (S (uuids_drawn st))) Hpos) as [k Hk].
    by exists k, (mkParkingSpot k (uuid (uuids_drawn st)) SpotType.Large).
  - rewrite create_levels_S. apply IH.
Qed.

Lemma main_lot_has_large_spot (uuid : nat -> string) :
  exists k : string,
    compatibleb (spotRepo_ (fresh_lot uuid 3 10 main_counts))
                VehicleType.Car k = true.
Proof.
  unfold fresh_lot, createParkingLot. cbn [snd newUUID].
  change (Z.to_nat 3) with 3%nat.
  match goal with
  | |- context [create_levels uuid 3 ?lvl ?lot main_counts ?s] =>
      destruct (create_levels_large uuid 2 lvl lot main_counts s)
        as (k & sp & Hk & Hty); [cbn; lia|]
  end.
  exists k. unfold compatibleb, ParkingSpotRepository.findById.
  by rewrite Hk, Hty.
Qed.

Lemma createParkingLot_fresh (uuid : nat -> string) (levels spotsPerLevel : Z)
    (counts : SpotType.t -> option Z) :
  createParkingLot uuid levels spotsPerLevel counts empty_service
  = (uuid 0%nat, fresh_lot uuid levels spotsPerLevel counts).
Proof. unfold fresh_lot, createParkingLot. reflexivity. Qed.

Lemma fresh_lot_drawn (uuid : nat -> string) (levels spotsPerLevel : Z)
    (counts : SpotType.t -> option Z) :
  uuids_drawn (fresh_lot uuid levels spotsPerLevel counts)
  = (1 + Z.to_nat levels * (1 + spots_per_level counts))%nat.
Proof.
  unfold fresh_lot, createParkingLot. cbn [snd newUUID].
  by rewrite (proj1 (create_levels_drawn uuid _ _ _ _ _)).
Qed.

(** Parking into an empty repository and leaving again. *)
Lemma park_and_leave_once (uuid : nat -> string) (v : string)
    (vt : VehicleType.t) (now_in now_out : time_point) (st : ParkingService) :
  bookingRepo_ st = mkBookingRepository ∅ ∅ -> lot_wf st ->
  (exists k : string, compatibleb (spotRepo_ st) vt k = true) ->
  exists st1 st2 : ParkingService,
    parkVehicle uuid v vt now_in st = (Some (uuid (uuids_drawn st)), st1) /\
    leaveVehicle v now_out st1 = (true, st2) /\
    bookingRepo_ st2 = mkBookingRepository ∅ ∅ /\
    uuids_drawn st2 = S (uuids_drawn st).
Proof.
  intros Hrepo [Hkeys _] [k Hk].
  assert (Hwf : repo_wf (bookingRepo_ st))
    by (rewrite Hrepo; apply empty_repo_wf).
  unfold parkVehicle. rewrite parkVehicle_scan_filter by done.
  destruct (List.filter (compatibleb (spotRepo_ st) vt) (mutexes_ st))
    as [|spot rest] eqn:Hfilter.
  { assert (Hin : In k (List.filter (compatibleb (spotRepo_ st) vt)
                                    (mutexes_ st))).
    { apply filter_In. split; [|done]. apply list_elem_of_In, Hkeys.
      unfold compatibleb, ParkingSpotRepository.findById in Hk.
      by destruct (spots_ (spotRepo_ st) !! k). }
    rewrite Hfilter in Hin. destruct Hin. }
  rewrite Hrepo.
  set (b := mkBooking (uuid (uuids_drawn st)) spot v vt now_in None).
  set (st1 := mkParkingService _ _ _ _ _ _).
  assert (Hwf1 : repo_wf (bookingRepo_ st1))
    by (apply save_repo_wf; [apply empty_repo_wf | apply lookup_empty]).
  assert (Hv : vehicleIndex_ (bookingRepo_ st1) !! v
               = Some (uuid (uuids_drawn st))) by apply lookup_insert_eq.
  destruct (leaveVehicle_present v _ now_out st1 Hwf1 Hv)
    as (_ & _ & _ & _ & _ & Hleave).
  exists st1. eexists. split; [done|]. split; [exact Hleave|].
  cbn. split; [|done]. f_equal; apply delete_insert_id, lookup_empty.
Qed.

(** X9.  Whatever identifiers the generator hands out, the program builds
    a lot of 3 floors with 2 motorcycle, 6 compact and 2 large spots each,
    parks the car, writes [Parked in booking] followed by the 35th
    identifier drawn (it never writes [Lot full!]), lets the car leave and
    exits with 0; no booking is left in the repository. *)
Theorem main_parks_and_leaves (uuid : nat -> string)
    (now_in now_out : time_point) :
  exists st : ParkingService,
    main uuid now_in now_out
      = (("Parked in booking " ++ uuid 34%nat ++ newline)%string, 0, st) /\
    bookingRepo_ st = mkBookingRepository ∅ ∅ /\
    uuids_drawn st = 35%nat.
Proof.
  destruct (park_and_leave_once uuid "KA01AB1234" VehicleType.Car
              now_in now_out (fresh_lot uuid 3 10 main_counts)
              (fresh_lot_bookingRepo uuid 3 10 main_counts)
              (fresh_lot_lot_wf uuid 3 10 main_counts)
              (main_lot_has_large_spot uuid))
    as (st1 & st2 & Hpark & Hleave & Hrepo & Hdrawn).
  rewrite (fresh_lot_drawn uuid 3 10 main_counts) in Hpark, Hdrawn.
  change (1 + Z.to_nat 3 * (1 + spots_per_level main_counts))%nat
    with 34%nat in Hpark, Hdrawn.
  exists st2. split; [|by split].
  unfold main. rewrite createParkingLot_fresh, Hpark, Hleave. reflexivity.
Qed.

End ParkingExtras.

(* ===================================================================== *)
(** * Further properties of the meeting scheduler                         *)
(* ===================================================================== *)

Module MeetingExtras.
Import Meeting MeetingProofs.

(** ** Helper facts *)

Lemma select_loop_prefilter (cap : Z) (rooms : list Room) (best : option Room) :
  select_loop best (List.filter (fun r => cap <=? capacity r) rooms) cap
  = select_loop best rooms cap.
Proof.
  revert best. induction rooms as [|r rest IH]; intros best; [done|].
  cbn [List.filter select_loop].
  destruct (cap <=? capacity r) eqn:Hfit.
  - cbn [select_loop]. apply IH.
  - replace (capacity r >=? cap) with false by lia. cbn. apply IH.
Qed.

Lemma isFree_false (toDate : time_point -> tm) (repo : BookingRepository)
    (room : string) (b : Booking) :
  isFree toDate repo room b = false <-> conflicting toDate repo room b.
Proof.
  split.
  - unfold isFree. intros Hfalse.
    assert (Hex : exists ex, In ex (findByRoomAndDay toDate repo room
                                      (toDate (start b)))
                             /\ overlaps ex b = true).
    { induction (findByRoomAndDay toDate repo room (toDate (start b)))
        as [|ex l IH]; [discriminate|].
      cbn in Hfalse. destruct (overlaps ex b) eqn:Ho.
      - exists ex. split; [by left|done].
      - destruct (IH Hfalse) as (ex' & Hin & Ho'). exists ex'.
        split; [by right|done]. }
    destruct Hex as (ex & Hin & Ho).
    apply list_elem_of_In, list_elem_of_filter in Hin as [[Hroom Hdate] Hin].
    apply list_elem_of_fmap in Hin as ([i ex'] & -> & Hin).
    apply elem_of_map_to_list in Hin.
    cbn in Hroom, Hdate, Ho.
    exists i, ex'. split; [done|]. split; [done|]. split; [done|].
    by apply overlaps_true.
  - intros (i & ex & Hi & Hroom & Hdate & Ho).
    destruct (isFree toDate repo room b) eqn:Hfree; [|done].
    destruct (proj1 (isFree_true toDate repo room b) Hfree i ex Hi Hroom Hdate Ho).
Qed.

Section Facts.

Variable toDate : time_point -> tm.
Variable uuid : nat -> string.
Context {strat_ : IRoomStrategy}.

(** What [bookMeeting] does, in one statement. *)
Lemma bookMeeting_cases (req : Booking) (w : World) :
  match select (findByCapacity (rr_ w) (headcount req)) (headcount req) with
  | None => bookMeeting toDate uuid req w = (None, w)
  | Some r =>
      let b := booked (uuid (uuids_drawn w)) (Room_id r)
                      (start req) (end_ req) (attendees req) in
      let free := isFree toDate (cal_repo_ w) (Room_id r) req in
      bookMeeting toDate uuid req w =
      (if free then Some (uuid (uuids_drawn w)) else None,
       mkWorld (rr_ w)
               (if free then save b (br_ w) else br_ w)
               ({[Room_id r]} ∪ mutexes_ w)
               (if free then save b (cal_repo_ w) else cal_repo_ w)
               (S (uuids_drawn w)))
  end.
Proof.
  unfold bookMeeting, headcount.
  destruct (select _ _) as [r|]; [|done]. cbn.
  change (isFree toDate (cal_repo_ w) (Room_id r) _)
    with (isFree toDate (cal_repo_ w) (Room_id r) req).
  by destruct (isFree toDate (cal_repo_ w) (Room_id r) req).
Qed.

(** Shape of the world after one call, whatever the outcome. *)
Lemma step_shape (w : World) (c : call) :
  rr_ (step toDate uuid w c) = rr_ w /\
  (cal_repo_ w = br_ w ->
   cal_repo_ (step toDate uuid w c) = br_ (step toDate uuid w c)) /\
  mutexes_ w ⊆ mutexes_ (step toDate uuid w c) /\
  (uuids_drawn w <= uuids_drawn (step toDate uuid w c))%nat /\
  (forall i b,
     bookings_ (br_ (step toDate uuid w c)) !! i = Some b ->
     bookings_ (br_ w) !! i = Some b \/
     (i = uuid (uuids_drawn w) /\ Booking_id b = i /\
      roomId b ∈ mutexes_ (step toDate uuid w c) /\
      uuids_drawn (step toDate uuid w c) = S (uuids_drawn w))).
Proof.
  destruct c as [req|i]; cbn.
  - pose proof (bookMeeting_cases req w) as Hcases.
    destruct (select (findByCapacity (rr_ w) (headcount req)) (headcount req))
      as [r|].
    + cbv zeta in Hcases. rewrite Hcases. cbn.
      destruct (isFree toDate (cal_repo_ w) (Room_id r) req); cbn.
      * split; [done|]. split; [by intros ->|].
        split; [apply union_subseteq_r|]. split; [lia|].
        intros i b [[<- <-]|[_ Hi]]%lookup_insert_Some; [right|by left].
        split; [done|]. split; [done|]. split; [|done].
        apply elem_of_union_l, elem_of_singleton. done.
      * split; [done|]. split; [done|].
        split; [apply union_subseteq_r|]. split; [lia|]. by left.
    + rewrite Hcases. cbn. repeat split; try done. by left.
  - unfold cancelMeeting. destruct (findById (br_ w) i) as [b|]; cbn.
    + split; [done|]. split; [by intros ->|]. split; [done|]. split; [lia|].
      intros j x [_ Hj]%lookup_delete_Some. by left.
    + repeat split; try done. by left.
Qed.

Lemma run_shape (calls : list call) (w : World) :
  cal_repo_ w = br_ w -> ids_drawn uuid w ->
  (forall i b, bookings_ (br_ w) !! i = Some b -> roomId b ∈ mutexes_ w) ->
  let w' := run toDate uuid calls w in
  rr_ w' = rr_ w /\ cal_repo_ w' = br_ w' /\ ids_drawn uuid w' /\
  (forall i b, bookings_ (br_ w') !! i = Some b -> roomId b ∈ mutexes_ w').
Proof.
  unfold run. revert w. induction calls as [|c calls IH]; intros w Hcal Hids Hlock.
  - by cbn.
  - cbn. destruct (step_shape w c) as (Hrr & Hmirror & Hmut & Hdrawn & Hnew).
    destruct (IH (step toDate uuid w c)) as (Hrr' & Hrest).
    + by apply Hmirror.
    + intros i b Hi. destruct (Hnew i b Hi) as [Hold|(-> & Hid & _ & Hd)].
      * destruct (Hids i b Hold) as (Hid & k & Hk & ->).
        split; [done|]. exists k. split; [lia|done].
      * split; [done|]. exists (uuids_drawn w). split; [lia|done].
    + intros i b Hi. destruct (Hnew i b Hi) as [Hold|(_ & _ & Hin & _)];
        [|done]. apply Hmut. by eapply Hlock.
    + split; [by rewrite Hrr', Hrr | exact Hrest].
Qed.

Lemma fresh_shape (rooms : list Room) :
  cal_repo_ (fresh rooms) = br_ (fresh rooms) /\
  ids_drawn uuid (fresh rooms) /\
  (forall i b, bookings_ (br_ (fresh rooms)) !! i = Some b ->
               roomId b ∈ mutexes_ (fresh rooms)).
Proof.
  split; [done|]. split; intros i b Hi; cbn in Hi;
    by rewrite lookup_empty in Hi.
Qed.

End Facts.

(** ** What a run keeps *)

(** X10.  After any sequence of bookMeeting and cancelMeeting calls on a
    fresh service, with any strategy: the repository of the calendar
    singleton equals the repository of the service, the room catalog is
    the one given at the start, every booking is stored under its own id,
    and the room of every stored booking has an entry in the lock table. *)
Theorem calendar_mirrors_repository (toDate : time_point -> tm)
    (uuid : nat -> string) `{IRoomStrategy} (rooms : list Room)
    (calls : list call) :
  let w := run toDate uuid calls (fresh rooms) in
  cal_repo_ w = br_ w /\
  rr_ w = mkRoomRepository rooms /\
  (forall i b, bookings_ (br_ w) !! i = Some b ->
               Booking_id b = i /\ roomId b ∈ mutexes_ w).
Proof.
  intros w.
  destruct (fresh_shape uuid rooms) as (Hcal & Hids & Hlock).
  destruct (run_shape toDate uuid calls (fresh rooms) Hcal Hids Hlock)
    as (Hrr & Hcal' & Hids' & Hlock').
  split; [exact Hcal'|]. split; [exact Hrr|].
  intros i b Hi. split; [by destruct (Hids' i b Hi) | by eapply Hlock'].
Qed.

(** ** Selection *)

(** X11.  Smallest-fit selection does not look at rooms that are too
    small: selecting among the rooms of capacity >= c, kept in their
    order, gives the same answer as selecting among all rooms.  When the
    rooms of capacity >= c are handed over in another order, selection
    still answers empty in the same cases and otherwise returns a room of
    the same capacity: the order can only change which of the rooms of
    that capacity is returned. *)
Theorem smallest_fit_ignores_small_rooms (rooms : list Room) (c : Z) :
  SmallestFitStrategy_select (List.filter (fun r => c <=? capacity r) rooms) c
  = SmallestFitStrategy_select rooms c /\
  (forall fitting : list Room,
     fitting ≡ₚ List.filter (fun r => c <=? capacity r) rooms ->
     capacity <$> SmallestFitStrategy_select fitting c
     = capacity <$> SmallestFitStrategy_select rooms c).
Proof.
  split; [apply select_loop_prefilter|]. intros fitting Hperm.
  assert (Hmem : forall r, r ∈ fitting <-> r ∈ rooms /\ c <= capacity r).
  { intros r. rewrite Hperm, !list_elem_of_In, filter_In.
    by rewrite Z.leb_le. }
  unfold SmallestFitStrategy_select.
  destruct (select_loop None fitting c) as [r|] eqn:Hf;
    destruct (select_loop None rooms c) as [r'|] eqn:Hr; cbn.
  - apply select_loop_some in Hf
      as [[? _]|(pre & post & Hl & Hc & _ & Hpre & Hpost)]; [done|].
    apply select_loop_some in Hr
      as [[? _]|(pre' & post' & Hl' & Hc' & _ & Hpre' & Hpost')]; [done|].
    assert (Hin : r ∈ fitting)
      by (rewrite Hl; apply elem_of_app; right; apply elem_of_cons; by left).
    assert (Hin' : r' ∈ rooms)
      by (rewrite Hl'; apply elem_of_app; right; apply elem_of_cons; by left).
    assert (Hle : capacity r' <= capacity r).
    { apply Hmem in Hin as [Hin _]. rewrite Hl' in Hin.
      apply elem_of_app in Hin as [Hin|[->|Hin]%elem_of_cons].
      - specialize (Hpre' r Hin Hc). lia.
      - lia.
      - by apply Hpost'. }
    assert (Hge : capacity r <= capacity r').
    { assert (Hin2 : r' ∈ fitting) by (by apply Hmem).
      rewrite Hl in Hin2.
      apply elem_of_app in Hin2 as [Hin2|[->|Hin2]%elem_of_cons].
      - specialize (Hpre r' Hin2 Hc'). lia.
      - lia.
      - by apply Hpost. }
    f_equal. lia.
  - apply select_loop_some in Hf
      as [[? _]|(pre & post & Hl & Hc & _)]; [done|].
    apply select_loop_none in Hr as [_ Hnone].
    assert (Hin : r ∈ fitting)
      by (rewrite Hl; apply elem_of_app; right; apply elem_of_cons; by left).
    apply Hmem in Hin as [Hin _]. specialize (Hnone r Hin). lia.
  - apply select_loop_some in Hr
      as [[? _]|(pre' & post' & Hl' & Hc' & _)]; [done|].
    apply select_loop_none in Hf as [_ Hnone].
    assert (Hin' : r' ∈ rooms)
      by (rewrite Hl'; apply elem_of_app; right; apply elem_of_cons; by left).
    assert (Hin2 : r' ∈ fitting) by (by apply Hmem).
    specialize (Hnone r' Hin2). lia.
  - done.
Qed.

Lemma smallest_fit_ignores_small_rooms_witness :
  capacity <$> SmallestFitStrategy_select [room "d" 8; room "b" 4; room "c" 4] 3
  = capacity <$> SmallestFitStrategy_select
                   [room "a" 2; room "c" 4; room "b" 4; room "d" 8] 3.
Proof.
  apply (proj2 (smallest_fit_ignores_small_rooms
                  [room "a" 2; room "c" 4; room "b" 4; room "d" 8] 3)
               [room "d" 8; room "b" 4; room "c" 4]).
  symmetry. exact (Permutation_rev [room "c" 4; room "b" 4; room "d" 8]).
Defined.

(** X12.  With the smallest-fit strategy a successful bookMeeting stores,
    under the id it returns, a booking with the window and the attendees
    of the request, in a room of the catalog whose capacity is at least
    the capacity asked and is the least such capacity in the catalog; for
    fewer than 2^31 attendees the room holds at least as many people as
    there are attendees. *)
Theorem booked_room_is_smallest_fit (toDate : time_point -> tm)
    (uuid : nat -> string) (req : Booking) (w w' : World) (i : string) :
  bookMeeting toDate uuid req w = (Some i, w') ->
  exists r : Room,
    r ∈ rooms_ (rr_ w) /\
    bookings_ (br_ w') !! i
      = Some (booked i (Room_id r) (start req) (end_ req) (attendees req)) /\
    headcount req <= capacity r /\
    (forall r', r' ∈ rooms_ (rr_ w) -> headcount req <= capacity r' ->
                capacity r <= capacity r') /\
    (Z.of_nat (length (attendees req)) < 2 ^ 31 ->
     Z.of_nat (length (attendees req)) <= capacity r).
Proof.
  intros Hbook. pose proof (bookMeeting_cases toDate uuid req w) as Hcases.
  destruct (select (findByCapacity (rr_ w) (headcount req)) (headcount req))
    as [r|] eqn:Hsel; [|congruence].
  cbv zeta in Hcases. rewrite Hbook in Hcases.
  destruct (isFree toDate (cal_repo_ w) (Room_id r) req); [|discriminate].
  injection Hcases as -> ->. cbn.
  assert (Hsel' : SmallestFitStrategy_select (rooms_ (rr_ w)) (headcount req)
                  = Some r).
  { rewrite <- Hsel. symmetry. apply select_loop_prefilter. }
  apply select_loop_some in Hsel'
    as [[? _]|(pre & post & Hrooms & Hcap & _ & Hpre & Hpost)]; [done|].
  exists r. split; [|split; [apply lookup_insert_eq|split; [done|split]]].
  - rewrite Hrooms. apply elem_of_app. right. apply elem_of_cons. by left.
  - intros r' Hr' Hfit. rewrite Hrooms in Hr'.
    apply elem_of_app in Hr' as [Hr'|[->|Hr']%elem_of_cons].
    + specialize (Hpre r' Hr' Hfit). lia.
    + lia.
    + by apply Hpost.
  - intros Hsmall. unfold headcount, int_of_size_t in Hcap.
    rewrite Z.mod_small in Hcap by lia. lia.
Qed.

Lemma booked_room_is_smallest_fit_witness :
  exists r : Room,
    r ∈ [boardroom] /\
    bookings_ (br_ (run hours tally afternoon (fresh [boardroom]))) !! tally 0
      = Some (booked (tally 0) (Room_id r) 14 15 ["ann"; "bob"]) /\
    2 <= capacity r.
Proof.
  assert (Hbook :
    bookMeeting hours tally (request 14 15 ["ann"; "bob"]) (fresh [boardroom])
    = (Some (tally 0), run hours tally afternoon (fresh [boardroom])))
    by (vm_compute; reflexivity).
  destruct (booked_room_is_smallest_fit hours tally
              (request 14 15 ["ann"; "bob"]) (fresh [boardroom])
              (run hours tally afternoon (fresh [boardroom])) (tally 0)
              Hbook) as (r & Hin & Hb & Hcap & _ & _).
  exists r. split; [exact Hin|]. split; [exact Hb | exact Hcap].
Defined.

(** ** Refusal *)

(** X13.  When the strategy selects no room, bookMeeting returns empty and
    changes nothing, not even the identifier count.  When it selects a
    room, the request is refused exactly when a stored booking of that
    room which starts on the date on which the request starts overlaps
    the request; no other room is tried.  Accepted or refused, the call
    has then drawn one identifier and the lock table has an entry for the
    room. *)
Theorem refusal_characterised (toDate : time_point -> tm)
    (uuid : nat -> string) `{IRoomStrategy} (req : Booking) (w : World) :
  match select (findByCapacity (rr_ w) (headcount req)) (headcount req) with
  | None => bookMeeting toDate uuid req w = (None, w)
  | Some r =>
      (fst (bookMeeting toDate uuid req w) = None <->
       conflicting toDate (cal_repo_ w) (Room_id r) req) /\
      uuids_drawn (snd (bookMeeting toDate uuid req w)) = S (uuids_drawn w) /\
      mutexes_ (snd (bookMeeting toDate uuid req w))
        = {[Room_id r]} ∪ mutexes_ w
  end.
Proof.
  pose proof (bookMeeting_cases toDate uuid req w) as Hcases.
  destruct (select (findByCapacity (rr_ w) (headcount req)) (headcount req))
    as [r|]; [|done].
  cbv zeta in Hcases. rewrite Hcases. cbn. split; [|done].
  rewrite <- isFree_false.
  by destruct (isFree toDate (cal_repo_ w) (Room_id r) req).
Qed.

(** ** Book and cancel *)

(** X14.  With a generator that never repeats, in a service reached from
    a fresh one: the id returned by a successful bookMeeting was not in
    use before, and cancelMeeting of that id right after returns true and
    brings both repositories back to what they were before the booking. *)
Theorem book_then_cancel_restores (toDate : time_point -> tm)
    (uuid : nat -> string) `{IRoomStrategy} (rooms : list Room)
    (calls : list call) (req : Booking) (i : string) (w1 : World) :
  collision_free uuid ->
  let w := run toDate uuid calls (fresh rooms) in
  bookMeeting toDate uuid req w = (Some i, w1) ->
  bookings_ (br_ w) !! i = None /\
  exists w2,
    cancelMeeting i w1 = (true, w2) /\
    br_ w2 = br_ w /\ cal_repo_ w2 = cal_repo_ w.
Proof.
  intros Hfree w Hbook.
  destruct (fresh_shape uuid rooms) as (Hcal0 & Hids0 & Hlock0).
  destruct (run_shape toDate uuid calls (fresh rooms) Hcal0 Hids0 Hlock0)
    as (_ & Hcal & Hids & _).
  fold w in Hcal, Hids.
  pose proof (bookMeeting_cases toDate uuid req w) as Hcases.
  destruct (select (findByCapacity (rr_ w) (headcount req)) (headcount req))
    as [r|]; [|congruence].
  cbv zeta in Hcases. rewrite Hbook in Hcases.
  destruct (isFree toDate (cal_repo_ w) (Room_id r) req); [|discriminate].
  injection Hcases as -> ->.
  assert (Hnew : bookings_ (br_ w) !! uuid (uuids_drawn w) = None).
  { destruct (bookings_ (br_ w) !! uuid (uuids_drawn w)) as [b|] eqn:Hold;
      [|done].
    destruct (Hids _ b Hold) as (_ & k & Hk & Heq).
    apply Hfree in Heq. lia. }
  split; [exact Hnew|].
  unfold cancelMeeting, findById. cbn. rewrite lookup_insert_eq.
  eexists. split; [reflexivity|]. cbn. rewrite Hcal.
  unfold remove. cbn. rewrite delete_insert_id by done.
  by destruct (br_ w).
Qed.

Lemma book_then_cancel_restores_witness :
  collision_free tally /\
  bookMeeting hours tally (request 16 17 ["cyd"])
    (run hours tally afternoon (fresh [boardroom]))
  = (Some (tally 1),
     snd (bookMeeting hours tally (request 16 17 ["cyd"])
            (run hours tally afternoon (fresh [boardroom])))) /\
  exists w2,
    cancelMeeting (tally 1)
      (snd (bookMeeting hours tally (request 16 17 ["cyd"])
              (run hours tally afternoon (fresh [boardroom])))) = (true, w2) /\
    br_ w2 = br_ (run hours tally afternoon (fresh [boardroom])).
Proof.
  assert (Hbook :
    bookMeeting hours tally (request 16 17 ["cyd"])
      (run hours tally afternoon (fresh [boardroom]))
    = (Some (tally 1),
       snd (bookMeeting hours tally (request 16 17 ["cyd"])
              (run hours tally afternoon (fresh [boardroom])))))
    by (vm_compute; reflexivity).
  split; [exact tally_collision_free|]. split; [exact Hbook|].
  destruct (book_then_cancel_restores hours tally [boardroom] afternoon
              (request 16 17 ["cyd"]) (tally 1) _ tally_collision_free Hbook)
    as (_ & w2 & Hc & Hbr & _).
  exists w2. by split.
Defined.

(** X15.  Submitting a request again right after it was accepted: when
    its window is not empty (start < end) the second request is refused
    and the repository keeps the first booking only; when end <= start
    the second request is accepted again, under the next identifier. *)
Theorem resubmission (toDate : time_point -> tm) (uuid : nat -> string)
    `{IRoomStrategy} (req : Booking) (w w1 : World) (i : string) :
  bookMeeting toDate uuid req w = (Some i, w1) ->
  (start req < end_ req ->
   exists w2, bookMeeting toDate uuid req w1 = (None, w2) /\
              br_ w2 = br_ w1) /\
  (end_ req <= start req ->
   exists w2, bookMeeting toDate uuid req w1
              = (Some (uuid (S (uuids_drawn w))), w2)).
Proof.
  intros Hbook. pose proof (bookMeeting_cases toDate uuid req w) as Hcases.
  destruct (select (findByCapacity (rr_ w) (headcount req)) (headcount req))
    as [r|] eqn:Hsel; [|congruence].
  cbv zeta in Hcases. rewrite Hbook in Hcases.
  destruct (isFree toDate (cal_repo_ w) (Room_id r) req) eqn:Hfree;
    [|discriminate].
  injection Hcases as -> ->.
  set (b := booked (uuid (uuids_drawn w)) (Room_id r) (start req) (end_ req)
                   (attendees req)).
  set (w1 := mkWorld _ _ _ _ _).
  pose proof (bookMeeting_cases toDate uuid req w1) as Hagain.
  change (rr_ w1) with (rr_ w) in Hagain. rewrite Hsel in Hagain.
  cbv zeta in Hagain. split.
  - intros Hwindow.
    assert (Hbusy : isFree toDate (cal_repo_ w1) (Room_id r) req = false).
    { apply isFree_false. exists (uuid (uuids_drawn w)), b.
      split; [apply lookup_insert_eq|]. split; [done|]. split; [done|].
      unfold windows_overlap. cbn. lia. }
    rewrite Hbusy in Hagain. eexists. split; [exact Hagain|done].
  - intros Hwindow.
    assert (Hstill : isFree toDate (cal_repo_ w1) (Room_id r) req = true).
    { apply isFree_true. intros j ex Hj Hroom Hdate. cbn in Hj.
      apply lookup_insert_Some in Hj as [[_ <-]|[_ Hj]].
      - unfold windows_overlap. cbn. lia.
      - by apply (proj1 (isFree_true toDate (cal_repo_ w) (Room_id r) req)
                        Hfree j ex). }
    rewrite Hstill in Hagain. eexists. exact Hagain.
Qed.

Lemma resubmission_witness :
  (exists w2,
     bookMeeting hours tally (request 14 15 ["ann"; "bob"])
       (run hours tally afternoon (fresh [boardroom])) = (None, w2) /\
     br_ w2 = br_ (run hours tally afternoon (fresh [boardroom]))) /\
  (exists w2,
     bookMeeting hours tally (request 11 10 ["ann"])
       (snd (bookMeeting hours tally (request 11 10 ["ann"])
               (fresh [boardroom]))) = (Some (tally 1), w2)).
Proof.
  assert (Hfull :
    bookMeeting hours tally (request 14 15 ["ann"; "bob"]) (fresh [boardroom])
    = (Some (tally 0), run hours tally afternoon (fresh [boardroom])))
    by (vm_compute; reflexivity).
  assert (Hempty :
    bookMeeting hours tally (request 11 10 ["ann"]) (fresh [boardroom])
    = (Some (tally 0),
       snd (bookMeeting hours tally (request 11 10 ["ann"])
              (fresh [boardroom])))) by (vm_compute; reflexivity).
  split.
  - apply (proj1 (resubmission hours tally (request 14 15 ["ann"; "bob"])
                    (fresh [boardroom])
                    (run hours tally afternoon (fresh [boardroom]))
                    (tally 0) Hfull)).
    cbn. lia.
  - apply (proj2 (resubmission hours tally (request 11 10 ["ann"])
                    (fresh [boardroom])
                    (snd (bookMeeting hours tally (request 11 10 ["ann"])
                            (fresh [boardroom])))
                    (tally 0) Hempty)).
    cbn. lia.
Defined.

End MeetingExtras.
